(** * Saturating integers of ELFIO: [elfio/elf_integer.hpp]

    A shallow embedding of the class template [elf_integer<T>] and the
    verification of its arithmetic surface.

    ** Modelling conventions

    - [T] ranges over the fixed-width signed types [int8_t], [int16_t],
      [int32_t] and [int64_t] (type [int_type]); a value of such a type is a
      [Z] inside the type's range.
    - C++ evaluates [+ - * / %] and unary [-] on operands of type [T] in the
      promoted type ([int] for the 8 and 16 bit types, [T] itself for the 32
      and 64 bit ones; [int] is taken to be 32 bits wide, as on every
      ILP32, LP64 and LLP64 platform).  A result that the promoted type
      cannot represent, and a division or remainder by zero, is undefined
      behaviour: the functions [int_add], [int_sub], ... return [None] there.
    - Storing an [int] result back into a narrower [T] (and initialising a
      [T] from a wider [U]) is an integral conversion: the value is reduced
      modulo 2^N ([convert]).
    - Objects live in a stack of cells, one cell per [elf_integer] object
      holding its only member [value]; a reference or [this] is the index of
      a cell, so that [a += a] and [a + a] (aliased operands) are covered.
      A member function is a computation in the monad [M]: it threads the
      stack and has no result ([None]) when it runs into undefined
      behaviour. *)

From Stdlib Require Import ZArith Lia Bool.
From stdpp Require Import base option list.

Local Open Scope Z_scope.

(** ** The underlying integer types *)

Inductive int_type : Type := Int8 | Int16 | Int32 | Int64.

Definition bits (T : int_type) : Z :=
  match T with Int8 => 8 | Int16 => 16 | Int32 => 32 | Int64 => 64 end.

(** [std::numeric_limits<T>::min()] and [std::numeric_limits<T>::max()]. *)
Definition numeric_limits_min (T : int_type) : Z := - 2 ^ (bits T - 1).
Definition numeric_limits_max (T : int_type) : Z := 2 ^ (bits T - 1) - 1.

Definition representable (T : int_type) (z : Z) : bool :=
  (numeric_limits_min T <=? z) && (z <=? numeric_limits_max T).

(** Integral promotion: the type in which arithmetic on [T] is carried out. *)
Definition promote (T : int_type) : int_type :=
  match T with Int8 | Int16 | Int32 => Int32 | Int64 => Int64 end.

(** Integral conversion to [T]: the value of [T] congruent to [z] modulo
    2^N. *)
Definition convert (T : int_type) (z : Z) : Z :=
  (z + 2 ^ (bits T - 1)) mod 2 ^ bits T - 2 ^ (bits T - 1).

(** Clamping into the range of [T] (the spec's [clamp(v, min(T), max(T))]). *)
Definition clamp (T : int_type) (z : Z) : Z :=
  if z <? numeric_limits_min T then numeric_limits_min T
  else if numeric_limits_max T <? z then numeric_limits_max T
  else z.

(** ** Built-in arithmetic, with undefined behaviour made explicit *)

Definition checked (P : int_type) (z : Z) : option Z :=
  if representable P z then Some z else None.

Definition int_add (P : int_type) (x y : Z) : option Z := checked P (x + y).
Definition int_sub (P : int_type) (x y : Z) : option Z := checked P (x - y).
Definition int_mul (P : int_type) (x y : Z) : option Z := checked P (x * y).
Definition int_neg (P : int_type) (x : Z) : option Z := checked P (- x).

(** [x / y] truncates toward zero; it is undefined for [y = 0] and when the
    quotient is not representable. *)
Definition int_div (P : int_type) (x y : Z) : option Z :=
  if y =? 0 then None else checked P (x ÷ y).

(** [x % y] is undefined exactly where [x / y] is. *)
Definition int_rem (P : int_type) (x y : Z) : option Z :=
  if y =? 0 then None
  else if representable P (x ÷ y) then Some (Z.rem x y) else None.

(** ** Objects, references and the monad of member functions *)

Abbreviation addr := nat (only parsing).
Abbreviation stack := (list Z) (only parsing).

Definition M (A : Type) : Type := stack -> option (A * stack).

Definition ret {A : Type} (a : A) : M A := fun s => Some (a, s).

Definition bind {A B : Type} (m : M A) (k : A -> M B) : M B :=
  fun s => match m s with
           | Some (a, s') => k a s'
           | None => None
           end.

Notation "'let*' x := m 'in' k" := (bind m (fun x => k))
  (at level 10, x name, m at level 100, k at level 200, only parsing).
Notation "m ;; k" := (bind m (fun _ => k))
  (at level 100, k at level 200, right associativity, only parsing).

(** The result of a built-in operation; undefined behaviour stops the run. *)
Definition arith {A : Type} (o : option A) : M A :=
  fun s => match o with Some a => Some (a, s) | None => None end.

(** Reading and writing the member [value] of the object at [obj]. *)
Definition value (obj : addr) : M Z :=
  fun s => match s !! obj with Some v => Some (v, s) | None => None end.

Definition set_value (obj : addr) (v : Z) : M unit :=
  fun s => match s !! obj with
           | Some _ => Some (tt, <[obj := v]> s)
           | None => None
           end.

(** [elf_integer tmp = *this;] a local object is a new cell on top of the
    stack, initialised with a copy of the member. *)
Definition new_local (v : Z) : M addr :=
  fun s => Some (length s, s ++ [v]).

(** [return tmp;] the result is the local's member, and the local, the top
    cell, goes away with the scope. *)
Definition return_local (tmp : addr) : M Z :=
  fun s => match s !! tmp with
           | Some v => Some (v, take (Nat.pred (length s)) s)
           | None => None
           end.

(** Short-circuit [&&] and [||]. *)
Definition and_then (c1 c2 : M bool) : M bool :=
  let* b := c1 in if b then c2 else ret false.

Definition or_else (c1 c2 : M bool) : M bool :=
  let* b := c1 in if b then ret true else c2.

(** ** The class template [elf_integer<T>] *)

Module elf_integer.
Section Members.

Variable T : int_type.

Let P : int_type := promote T.

(** [static elf_integer min()], [static elf_integer max()]. *)
Definition min : Z := numeric_limits_min T.
Definition max : Z := numeric_limits_max T.

(** [template <typename U> elf_integer( const elf_integer<U>& other )]:
    the member initialiser [value( other.value )] converts the value of
    type [U] to [T]; the body then compares the member with the limits. *)
Definition ctor_from (U : int_type) (this other : addr) : M unit :=
  let* o := value other in
  set_value this (convert T o) ;;
  let* v := value this in
  if v >? numeric_limits_max T then
    set_value this (numeric_limits_max T)
  else
    let* v := value this in
    if v <? numeric_limits_min T then
      set_value this (numeric_limits_min T)
    else ret tt.

(** [operator+=] *)
Definition op_add_assign (this other : addr) : M addr :=
  let* c :=
    and_then (let* o := value other in ret (o >? 0))
             (let* v := value this in let* o := value other in
              let* m := arith (int_sub P (numeric_limits_max T) o) in
              ret (v >? m)) in
  if c then set_value this (numeric_limits_max T) ;; ret this
  else
    let* c :=
      and_then (let* o := value other in ret (o <? 0))
               (let* v := value this in let* o := value other in
                let* m := arith (int_sub P (numeric_limits_min T) o) in
                ret (v <? m)) in
    if c then set_value this (numeric_limits_min T) ;; ret this
    else
      let* v := value this in let* o := value other in
      let* r := arith (int_add P v o) in
      set_value this (convert T r) ;; ret this.

(** [operator-=] *)
Definition op_sub_assign (this other : addr) : M addr :=
  let* c :=
    and_then (let* o := value other in ret (o >? 0))
             (let* v := value this in let* o := value other in
              let* m := arith (int_add P (numeric_limits_min T) o) in
              ret (v <? m)) in
  if c then set_value this (numeric_limits_min T) ;; ret this
  else
    let* c :=
      and_then (let* o := value other in ret (o <? 0))
               (let* v := value this in let* o := value other in
                let* m := arith (int_add P (numeric_limits_max T) o) in
                ret (v >? m)) in
    if c then set_value this (numeric_limits_max T) ;; ret this
    else
      let* v := value this in let* o := value other in
      let* r := arith (int_sub P v o) in
      set_value this (convert T r) ;; ret this.

(** [operator*=] *)
Definition op_mul_assign (this other : addr) : M addr :=
  let* c := or_else (let* v := value this in ret (v =? 0))
                    (let* o := value other in ret (o =? 0)) in
  if c then set_value this 0 ;; ret this
  else
    let* c :=
      and_then (and_then (let* v := value this in ret (v >? 0))
                         (let* o := value other in ret (o >? 0)))
               (let* v := value this in let* o := value other in
                let* q := arith (int_div P (numeric_limits_max T) o) in
                ret (v >? q)) in
    if c then set_value this (numeric_limits_max T) ;; ret this
    else
      let* c :=
        and_then (and_then (let* v := value this in ret (v >? 0))
                           (let* o := value other in ret (o <? 0)))
                 (let* v := value this in let* o := value other in
                  let* q := arith (int_div P (numeric_limits_min T) o) in
                  ret (v >? q)) in
      if c then set_value this (numeric_limits_min T) ;; ret this
      else
        let* c :=
          and_then (and_then (let* v := value this in ret (v <? 0))
                             (let* o := value other in ret (o >? 0)))
                   (let* v := value this in let* o := value other in
                    let* q := arith (int_div P (numeric_limits_min T) o) in
                    ret (v <? q)) in
        if c then set_value this (numeric_limits_min T) ;; ret this
        else
          let* c :=
            and_then (and_then (let* v := value this in ret (v <? 0))
                               (let* o := value other in ret (o <? 0)))
                     (let* v := value this in let* o := value other in
                      let* q := arith (int_div P (numeric_limits_max T) o) in
                      ret (v <? q)) in
          if c then set_value this (numeric_limits_max T) ;; ret this
          else
            let* v := value this in let* o := value other in
            let* r := arith (int_mul P v o) in
            set_value this (convert T r) ;; ret this.

(** The guard shared by [operator/=] and [operator%=]:
    [value == numeric_limits<T>::min() && other.value == -1]. *)
Definition min_by_minus_one (this other : addr) : M bool :=
  and_then (let* v := value this in ret (v =? numeric_limits_min T))
           (let* o := value other in ret (o =? -1)).

(** [operator/=] *)
Definition op_div_assign (this other : addr) : M addr :=
  let* o := value other in
  if o =? 0 then set_value this (numeric_limits_max T) ;; ret this
  else
    let* c := min_by_minus_one this other in
    if c then set_value this (numeric_limits_max T) ;; ret this
    else
      let* v := value this in let* o := value other in
      let* r := arith (int_div P v o) in
      set_value this (convert T r) ;; ret this.

(** [operator%=] *)
Definition op_rem_assign (this other : addr) : M addr :=
  let* o := value other in
  if o =? 0 then set_value this (numeric_limits_max T) ;; ret this
  else
    let* c := min_by_minus_one this other in
    if c then set_value this 0 ;; ret this
    else
      let* v := value this in let* o := value other in
      let* r := arith (int_rem P v o) in
      set_value this (convert T r) ;; ret this.

(** [++value] and [--value] on the member. *)
Definition incr_value (this : addr) : M unit :=
  let* v := value this in
  let* r := arith (int_add P v 1) in
  set_value this (convert T r).

Definition decr_value (this : addr) : M unit :=
  let* v := value this in
  let* r := arith (int_sub P v 1) in
  set_value this (convert T r).

(** [operator++()] *)
Definition op_pre_incr (this : addr) : M addr :=
  let* v := value this in
  (if v <? numeric_limits_max T then incr_value this else ret tt) ;;
  ret this.

(** [operator++( int )] *)
Definition op_post_incr (this : addr) : M Z :=
  let* c := value this in
  let* tmp := new_local c in
  let* v := value this in
  (if v <? numeric_limits_max T then incr_value this else ret tt) ;;
  return_local tmp.

(** [operator--()] *)
Definition op_pre_decr (this : addr) : M addr :=
  let* v := value this in
  (if v >? numeric_limits_min T then decr_value this else ret tt) ;;
  ret this.

(** [operator--( int )] *)
Definition op_post_decr (this : addr) : M Z :=
  let* c := value this in
  let* tmp := new_local c in
  let* v := value this in
  (if v >? numeric_limits_min T then decr_value this else ret tt) ;;
  return_local tmp.

(** The binary operators [operator+], [operator-], [operator*],
    [operator/] and [operator%]. *)
Definition op_add (this other : addr) : M Z :=
  let* c := value this in
  let* tmp := new_local c in
  op_add_assign tmp other ;;
  return_local tmp.

Definition op_sub (this other : addr) : M Z :=
  let* c := value this in
  let* tmp := new_local c in
  op_sub_assign tmp other ;;
  return_local tmp.

Definition op_mul (this other : addr) : M Z :=
  let* c := value this in
  let* tmp := new_local c in
  op_mul_assign tmp other ;;
  return_local tmp.

Definition op_div (this other : addr) : M Z :=
  let* c := value this in
  let* tmp := new_local c in
  op_div_assign tmp other ;;
  return_local tmp.

Definition op_rem (this other : addr) : M Z :=
  let* c := value this in
  let* tmp := new_local c in
  op_rem_assign tmp other ;;
  return_local tmp.

(** Unary [operator-()] *)
Definition op_neg (this : addr) : M Z :=
  let* c := value this in
  let* tmp := new_local c in
  let* v := value tmp in
  (if negb (v =? numeric_limits_min T) then
     let* v := value tmp in
     let* r := arith (int_neg P v) in
     set_value tmp (convert T r)
   else ret tt) ;;
  return_local tmp.

(** [operator==], [operator!=], [operator<], [operator>], [operator<=]
    and [operator>=]: both members are read and compared. *)
Definition op_eq (this other : addr) : M bool :=
  let* v := value this in let* o := value other in ret (v =? o).

Definition op_ne (this other : addr) : M bool :=
  let* v := value this in let* o := value other in ret (negb (v =? o)).

Definition op_lt (this other : addr) : M bool :=
  let* v := value this in let* o := value other in ret (v <? o).

Definition op_gt (this other : addr) : M bool :=
  let* v := value this in let* o := value other in ret (v >? o).

Definition op_le (this other : addr) : M bool :=
  let* v := value this in let* o := value other in ret (v <=? o).

Definition op_ge (this other : addr) : M bool :=
  let* v := value this in let* o := value other in ret (v >=? o).

(** The defaulted copy assignment [operator=] copies the member. *)
Definition op_assign (this other : addr) : M addr :=
  let* o := value other in set_value this o ;; ret this.

End Members.
End elf_integer.

(** ** Notions used in the statements

    [writes_only this m]: whenever [m] has a result, it is the reference
    [this] and the stack differs from the initial one at most in the cell of
    [this]. *)

Definition writes_only (this : addr) (m : M addr) : Prop :=
  forall s x s',
    m s = Some (x, s') -> x = this /\ exists r, s' = <[this := r]> s.

(** [stores_in_range T this s res]: the run [res] from the stack [s] has a
    result, which is the reference [this] and the stack [s] with a value of
    the range of [T] stored in the cell of [this]. *)
Definition stores_in_range (T : int_type) (this : addr) (s : stack)
    (res : option (addr * stack)) : Prop :=
  exists r, representable T r = true /\ res = Some (this, <[this := r]> s).

(** [times n m] runs [m] [n] times in a row. *)
Fixpoint times {A : Type} (n : nat) (m : M A) : M unit :=
  match n with
  | O => ret tt
  | S n' => m ;; times n' m
  end.

(** The spec's reading of a binary operator: the compound assignment
    applied to a new instance that holds a copy of the left operand's value
    [a]; the result is the value the new instance holds afterwards. *)
Definition copy_then_assign (assign : addr -> addr -> M addr)
    (a : Z) (other : addr) (s : stack) : option Z :=
  match assign (length s) other (s ++ [a]) with
  | Some (_, s') => s' !! length s
  | None => None
  end.

(** ** The 8-bit examples, evaluated

    The first object of the stack is the left operand, the second the right
    one. *)

Example add_100_100 :
  elf_integer.op_add Int8 0%nat 1%nat [100; 100] = Some (127, [100; 100]).
Proof. reflexivity. Qed.

Example add_neg100_neg100 :
  elf_integer.op_add Int8 0%nat 1%nat [-100; -100]
  = Some (-128, [-100; -100]).
Proof. reflexivity. Qed.

Example add_assign_aliased :
  elf_integer.op_add_assign Int8 0%nat 0%nat [100] = Some (0%nat, [127]).
Proof. reflexivity. Qed.

Example mul_100_100 :
  elf_integer.op_mul Int8 0%nat 1%nat [100; 100] = Some (127, [100; 100]).
Proof. reflexivity. Qed.

Example mul_neg100_100 :
  elf_integer.op_mul Int8 0%nat 1%nat [-100; 100]
  = Some (-128, [-100; 100]).
Proof. reflexivity. Qed.

Example mul_int8_5_by_minus_1 :
  elf_integer.op_mul Int8 0%nat 1%nat [5; -1] = Some (-5, [5; -1]).
Proof. reflexivity. Qed.

Example div_by_zero :
  elf_integer.op_div Int8 0%nat 1%nat [-7; 0] = Some (127, [-7; 0]).
Proof. reflexivity. Qed.

Example div_min_by_minus_1 :
  elf_integer.op_div Int8 0%nat 1%nat [-128; -1] = Some (127, [-128; -1]).
Proof. reflexivity. Qed.

Example rem_min_by_minus_1 :
  elf_integer.op_rem Int8 0%nat 1%nat [-128; -1] = Some (0, [-128; -1]).
Proof. reflexivity. Qed.

Example neg_min :
  elf_integer.op_neg Int8 0%nat [-128] = Some (-128, [-128]).
Proof. reflexivity. Qed.

Example incr_at_max :
  times 5 (elf_integer.op_pre_incr Int8 0%nat) [127] = Some (tt, [127]).
Proof. reflexivity. Qed.

Example decr_at_min :
  times 5 (elf_integer.op_post_decr Int8 0%nat) [-128] = Some (tt, [-128]).
Proof. reflexivity. Qed.

Example convert_42 :
  elf_integer.ctor_from Int8 Int32 0%nat 1%nat [0; 42] = Some (tt, [42; 42]).
Proof. reflexivity. Qed.

(** ** Facts about the limits, promotion and conversion *)

Lemma limits_min_max (T : int_type) :
  numeric_limits_min T = - numeric_limits_max T - 1
  /\ 127 <= numeric_limits_max T.
Proof. destruct T; vm_compute; split; congruence. Qed.

Lemma promote_limits (T : int_type) :
  numeric_limits_max T <= numeric_limits_max (promote T)
  /\ 2147483647 <= numeric_limits_max (promote T).
Proof. destruct T; vm_compute; split; congruence. Qed.

Lemma promote_narrow (T : int_type) :
  bits T < 32 ->
  numeric_limits_max T + 1 <= numeric_limits_max (promote T).
Proof. destruct T; vm_compute; congruence. Qed.

Lemma promote_wide (T : int_type) : 32 <= bits T -> promote T = T.
Proof. destruct T; vm_compute; congruence. Qed.

Lemma representable_spec (T : int_type) (z : Z) :
  representable T z = true
  <-> numeric_limits_min T <= z <= numeric_limits_max T.
Proof. unfold representable. lia. Qed.


Lemma convert_representable (T : int_type) (z : Z) :
  representable T z = true -> convert T z = z.
Proof.
  rewrite representable_spec.
  unfold convert, numeric_limits_min, numeric_limits_max.
  replace (2 ^ bits T) with (2 * 2 ^ (bits T - 1))
    by (destruct T; reflexivity).
  generalize (2 ^ (bits T - 1)). intros h Hz.
  rewrite Z.mod_small; lia.
Qed.

Lemma convert_in_range (T : int_type) (z : Z) :
  representable T (convert T z) = true.
Proof.
  rewrite representable_spec.
  unfold convert, numeric_limits_min, numeric_limits_max.
  replace (2 ^ bits T) with (2 * 2 ^ (bits T - 1))
    by (destruct T; reflexivity).
  assert (0 < 2 ^ (bits T - 1)) by (destruct T; reflexivity).
  generalize dependent (2 ^ (bits T - 1)). intros h Hh.
  pose proof (Z.mod_pos_bound (z + h) (2 * h)). lia.
Qed.

Lemma clamp_in_range (T : int_type) (z : Z) :
  representable T (clamp T z) = true.
Proof.
  rewrite representable_spec. unfold clamp.
  pose proof (limits_min_max T).
  destruct (Z.ltb_spec z (numeric_limits_min T));
    [|destruct (Z.ltb_spec (numeric_limits_max T) z)]; lia.
Qed.

Lemma clamp_representable (T : int_type) (z : Z) :
  representable T z = true -> clamp T z = z.
Proof.
  rewrite representable_spec. unfold clamp. intros Hz.
  destruct (Z.ltb_spec z (numeric_limits_min T));
    [|destruct (Z.ltb_spec (numeric_limits_max T) z)]; lia.
Qed.


(** ** Running the primitives of the monad *)

Lemma value_run (s : stack) (obj : addr) (v : Z) :
  s !! obj = Some v -> value obj s = Some (v, s).
Proof. unfold value. intros ->. reflexivity. Qed.


Lemma lookup_local (s : stack) (v : Z) : (s ++ [v]) !! length s = Some v.
Proof. rewrite lookup_app_r by lia. rewrite Nat.sub_diag. reflexivity. Qed.

Lemma lookup_below_local (s : stack) (obj : addr) (v w : Z) :
  s !! obj = Some w -> (s ++ [v]) !! obj = Some w.
Proof.
  intros H. rewrite lookup_app_l; [exact H|]. eapply lookup_lt_Some; eauto.
Qed.

Lemma insert_local (s : stack) (v r : Z) :
  <[length s := r]> (s ++ [v]) = s ++ [r].
Proof.
  rewrite insert_app_r_alt by lia. rewrite Nat.sub_diag. reflexivity.
Qed.

Lemma return_local_run (s : stack) (r : Z) :
  return_local (length s) (s ++ [r]) = Some (r, s).
Proof.
  unfold return_local. rewrite lookup_local.
  rewrite length_app, Nat.add_1_r. cbn [Nat.pred length].
  rewrite take_app_length. reflexivity.
Qed.

Lemma return_local_frame (s : stack) (obj : addr) (v c w : Z) :
  s !! obj = Some w ->
  return_local (length s) (<[obj := v]> (s ++ [c]))
  = Some (c, <[obj := v]> s).
Proof.
  intros H. apply lookup_lt_Some in H.
  rewrite insert_app_l by exact H.
  rewrite <- (length_insert s obj v) at 1.
  apply return_local_run.
Qed.

(** ** Truncating division against a limit *)

Lemma quot_nonneg_pos (n d x : Z) :
  0 <= n -> 0 < d ->
  0 <= n ÷ d <= n /\ (n ÷ d < x <-> n < x * d).
Proof.
  intros Hn Hd. rewrite Z.quot_div_nonneg by lia.
  pose proof (Z.div_mod n d). pose proof (Z.mod_pos_bound n d). nia.
Qed.

Lemma quot_neg_neg (n d x : Z) :
  n <= 0 -> d < 0 ->
  0 <= n ÷ d <= - n /\ (n ÷ d < x <-> x * d < n).
Proof.
  intros Hn Hd.
  replace (n ÷ d) with ((- n) ÷ (- d)) by (rewrite Z.quot_opp_opp; lia).
  destruct (quot_nonneg_pos (- n) (- d) x) as [? ?]; lia.
Qed.

Lemma quot_neg_pos (n d x : Z) :
  n <= 0 -> 0 < d ->
  n <= n ÷ d <= 0 /\ (x < n ÷ d <-> x * d < n).
Proof.
  intros Hn Hd.
  replace (n ÷ d) with (- ((- n) ÷ d)) by (rewrite Z.quot_opp_l; lia).
  destruct (quot_nonneg_pos (- n) d (- x)) as [? ?]; lia.
Qed.

Lemma quot_nonneg_neg (n d x : Z) :
  0 <= n -> d < 0 ->
  - n <= n ÷ d <= 0 /\ (x < n ÷ d <-> n < x * d).
Proof.
  intros Hn Hd.
  replace (n ÷ d) with (- (n ÷ (- d))) by (rewrite Z.quot_opp_r; lia).
  destruct (quot_nonneg_pos n (- d) (- x)) as [? ?]; lia.
Qed.

Lemma quot_minus_one (n : Z) : n ÷ -1 = - n.
Proof.
  change (-1) with (- (1)). rewrite Z.quot_opp_r by lia.
  rewrite Z.quot_1_r. reflexivity.
Qed.

(** The quotient of two values of a type is a value of the type, except
    for the minimum divided by -1. *)
Lemma quot_range (m x y : Z) :
  0 <= m -> - m - 1 <= x <= m -> y <> 0 ->
  ~ (x = - m - 1 /\ y = -1) ->
  - m - 1 <= x ÷ y <= m.
Proof.
  intros Hm Hx Hy Hex.
  destruct (Z.eq_dec y (-1)) as [->|Hy1].
  - rewrite quot_minus_one. lia.
  - destruct (Z_lt_le_dec x 0), (Z_lt_le_dec y 0).
    + destruct (quot_neg_neg x y (m + 1)) as [? ?]; [lia..|]. nia.
    + destruct (quot_neg_pos x y 0) as [? ?]; lia.
    + destruct (quot_nonneg_neg x y 0) as [? ?]; lia.
    + destruct (quot_nonneg_pos x y 0) as [? ?]; lia.
Qed.

Lemma rem_range (m x y : Z) :
  0 <= m -> - m - 1 <= y <= m -> y <> 0 ->
  - m - 1 <= Z.rem x y <= m.
Proof.
  intros Hm Hy Hy0. pose proof (Z.rem_bound_abs x y Hy0). lia.
Qed.


Lemma representable_false (T : int_type) (z : Z) :
  representable T z = false
  <-> z < numeric_limits_min T \/ numeric_limits_max T < z.
Proof. unfold representable. lia. Qed.

(** ** Tactics that run a member function

    [unfold_members] exposes the monadic code; [run_step] performs one
    step of it: a read of a cell whose content is known, a reduction, or a
    case distinction on the next test; [bool_to_prop] turns the recorded
    tests into arithmetic facts, and [finish] closes a leaf: a run that
    stops is excluded by [lia], a run with a result stores the value of the
    statement. *)

Ltac bool_to_prop :=
  repeat match goal with
  | H : representable _ _ = true |- _ => apply representable_spec in H
  | H : representable _ _ = false |- _ => apply representable_false in H
  | H : (_ <? _) = true |- _ => apply Z.ltb_lt in H
  | H : (_ <? _) = false |- _ => apply Z.ltb_ge in H
  | H : (_ >? _) = true |- _ => rewrite Z.gtb_ltb in H
  | H : (_ >? _) = false |- _ => rewrite Z.gtb_ltb in H
  | H : (_ =? _) = true |- _ => apply Z.eqb_eq in H
  | H : (_ =? _) = false |- _ => apply Z.eqb_neq in H
  end.

Ltac unfold_members :=
  cbv beta zeta delta
    [elf_integer.ctor_from
     elf_integer.op_add_assign elf_integer.op_sub_assign
     elf_integer.op_mul_assign
     elf_integer.op_div_assign elf_integer.op_rem_assign
     elf_integer.min_by_minus_one
     elf_integer.incr_value elf_integer.decr_value
     elf_integer.op_pre_incr elf_integer.op_pre_decr
     and_then or_else bind ret arith value set_value
     int_add int_sub int_mul int_neg int_div int_rem checked].

Ltac unfold_locals :=
  cbv beta zeta delta
    [elf_integer.op_post_incr elf_integer.op_post_decr elf_integer.op_neg
     elf_integer.op_add elf_integer.op_sub elf_integer.op_mul
     elf_integer.op_div elf_integer.op_rem new_local].

(** [decide_test t] fixes the value of the test [t] from the context. *)
Ltac decide_test t :=
  let E := fresh "E" in destruct t eqn:E; try (exfalso; lia).

Ltac run_step :=
  first
    [ match goal with
      | H : ?s !! ?l = _ |- context [?s !! ?l] => rewrite H
      end
    | progress cbv beta iota zeta
    | match goal with
      | |- context [if ?x >? ?y then _ else _] => rewrite (Z.gtb_ltb x y)
      end
    | match goal with
      | H : ?c = _ |- context [if ?c then _ else _] => rewrite H
      end
    | match goal with
      | |- context [if negb ?c then _ else _] =>
          destruct c eqn:?; cbn [negb]
      end
    | match goal with
      | |- context [if ?c then _ else _] => destruct c eqn:?
      end ].

Ltac solve_value :=
  rewrite ?convert_representable by (apply representable_spec; lia);
  unfold clamp;
  repeat match goal with
         | |- context [?x <? ?y] => destruct (Z.ltb_spec x y)
         end;
  lia.

Ltac finish :=
  match goal with
  | |- None = Some _ => exfalso; lia
  | |- return_local (length ?s) (<[length ?s := _]> (?s ++ [_])) = _ =>
      rewrite insert_local, return_local_run; finish
  | |- return_local (length ?s) (<[_ := _]> (?s ++ [_])) = _ =>
      erewrite return_local_frame by eassumption; finish
  | |- return_local (length ?s) (?s ++ [_]) = _ =>
      rewrite return_local_run; finish
  | |- Some (?r, <[?i := _]> ?s) = Some (?r, <[?i := _]> ?s) =>
      apply (f_equal (fun v => Some (r, <[i := v]> s))); solve_value
  | |- Some (?r, ?s) = Some (?r, <[_ := _]> ?s) =>
      rewrite list_insert_id by assumption; reflexivity
  | |- Some (_, ?s) = Some (_, ?s) =>
      apply (f_equal (fun v => Some (v, s))); solve_value
  end.

(** [operator*=] tests the signs of both operands again in every guard:
    they are decided once, before the run. *)
Ltac mul_run a b :=
  decide_test (a =? 0); decide_test (0 <? a); decide_test (a <? 0);
  decide_test (b =? 0); decide_test (0 <? b); decide_test (b <? 0);
  unfold_members; repeat run_step; bool_to_prop; finish.

(** ** The compound assignments on in-range operands *)

Section Saturation.

Variable T : int_type.
Variables (s : stack) (this other : addr) (a b : Z).
Hypothesis Hthis : s !! this = Some a.
Hypothesis Hother : s !! other = Some b.
Hypothesis Ha : representable T a = true.
Hypothesis Hb : representable T b = true.

Lemma op_add_assign_run :
  elf_integer.op_add_assign T this other s
  = Some (this, <[this := clamp T (a + b)]> s).
Proof using Hthis Hother Ha Hb.
  pose proof (limits_min_max T) as HT.
  pose proof (limits_min_max (promote T)) as HP.
  pose proof (promote_limits T) as HTP.
  unfold_members.
  repeat run_step.
  all: bool_to_prop; finish.
Qed.

Lemma op_sub_assign_run :
  elf_integer.op_sub_assign T this other s
  = Some (this, <[this := clamp T (a - b)]> s).
Proof using Hthis Hother Ha Hb.
  pose proof (limits_min_max T) as HT.
  pose proof (limits_min_max (promote T)) as HP.
  pose proof (promote_limits T) as HTP.
  unfold_members.
  repeat run_step.
  all: bool_to_prop; finish.
Qed.

Lemma op_div_assign_run :
  elf_integer.op_div_assign T this other s
  = Some (this,
          <[this := if b =? 0 then numeric_limits_max T
                    else if (a =? numeric_limits_min T) && (b =? -1)
                         then numeric_limits_max T
                         else a ÷ b]> s).
Proof using Hthis Hother Ha Hb.
  pose proof (limits_min_max T) as HT.
  pose proof (limits_min_max (promote T)) as HP.
  pose proof (promote_limits T) as HTP.
  pose proof (quot_range (numeric_limits_max T) a b) as Hq.
  unfold_members.
  repeat run_step.
  all: bool_to_prop; cbn [andb]; finish.
Qed.

Lemma op_rem_assign_run :
  elf_integer.op_rem_assign T this other s
  = Some (this,
          <[this := if b =? 0 then numeric_limits_max T
                    else if (a =? numeric_limits_min T) && (b =? -1)
                         then 0
                         else Z.rem a b]> s).
Proof using Hthis Hother Ha Hb.
  pose proof (limits_min_max T) as HT.
  pose proof (limits_min_max (promote T)) as HP.
  pose proof (promote_limits T) as HTP.
  pose proof (quot_range (numeric_limits_max T) a b) as Hq.
  pose proof (rem_range (numeric_limits_max T) a b) as Hr.
  unfold_members.
  repeat run_step.
  all: bool_to_prop; cbn [andb]; finish.
Qed.

Lemma op_mul_assign_run :
  bits T < 32 \/ ~ (0 < a /\ b = -1) ->
  elf_integer.op_mul_assign T this other s
  = Some (this, <[this := clamp T (a * b)]> s).
Proof using Hthis Hother Ha Hb.
  intros Hsafe.
  pose proof (limits_min_max T) as [HT1 HT2].
  pose proof (limits_min_max (promote T)) as [HP1 HP2].
  pose proof (promote_limits T) as [HTP1 HTP2].
  apply representable_spec in Ha, Hb.
  destruct (Z.lt_trichotomy a 0) as [Ha0|[Ha0|Ha0]];
    destruct (Z.lt_trichotomy b 0) as [Hb0|[Hb0|Hb0]].
  - destruct (quot_nonneg_neg (numeric_limits_max T) b a) as [Qr Qi];
      [lia..|].
    assert (0 < a * b) by nia. clear Hsafe.
    mul_run a b.
  - assert (a * b = 0) by nia. clear Hsafe.
    mul_run a b.
  - destruct (quot_neg_pos (numeric_limits_min T) b a) as [Qr Qi];
      [lia..|].
    assert (a * b < 0) by nia. clear Hsafe.
    mul_run a b.
  - assert (a * b = 0) by nia. clear Hsafe.
    mul_run a b.
  - assert (a * b = 0) by nia. clear Hsafe.
    mul_run a b.
  - assert (a * b = 0) by nia. clear Hsafe.
    mul_run a b.
  - destruct (quot_neg_neg (numeric_limits_min T) b a) as [Qr Qi];
      [lia..|].
    assert (a * b < 0) by nia.
    assert (numeric_limits_min T ÷ b <= numeric_limits_max (promote T))
      as Hq.
    { destruct (Z.eq_dec b (-1)) as [->|Hb1].
      - rewrite quot_minus_one. pose proof (promote_narrow T). lia.
      - pose proof (quot_range (numeric_limits_max T)
                      (numeric_limits_min T) b). lia. }
    clear Hsafe.
    mul_run a b.
  - assert (a * b = 0) by nia. clear Hsafe.
    mul_run a b.
  - destruct (quot_nonneg_pos (numeric_limits_max T) b a) as [Qr Qi];
      [lia..|].
    assert (0 < a * b) by nia. clear Hsafe.
    mul_run a b.
Qed.

(** In the 32 and 64 bit instances the second guard of [operator*=]
    divides the minimum by -1 whenever [value] is positive and
    [other.value] is -1. *)
Lemma op_mul_assign_undefined :
  32 <= bits T -> 0 < a -> b = -1 ->
  elf_integer.op_mul_assign T this other s = None.
Proof using Hthis Hother Ha.
  intros Hw Ha0 Hb1.
  pose proof (limits_min_max T) as [HT1 HT2].
  apply representable_spec in Ha.
  assert (representable (promote T) (numeric_limits_min T ÷ b) = false) as Hq.
  { rewrite promote_wide by exact Hw. apply representable_false.
    rewrite Hb1, quot_minus_one. lia. }
  decide_test (a =? 0); decide_test (0 <? a);
  decide_test (b =? 0); decide_test (0 <? b); decide_test (b <? 0).
  unfold_members; repeat run_step.
  reflexivity.
Qed.

End Saturation.

(** ** Increment, decrement and negation on an in-range operand *)

Section Unary.

Variable T : int_type.
Variables (s : stack) (this : addr) (a : Z).
Hypothesis Hthis : s !! this = Some a.
Hypothesis Ha : representable T a = true.

Lemma op_pre_incr_run :
  elf_integer.op_pre_incr T this s
  = Some (this, <[this := if a <? numeric_limits_max T then a + 1 else a]> s).
Proof using Hthis Ha.
  pose proof (limits_min_max T) as HT.
  pose proof (limits_min_max (promote T)) as HP.
  pose proof (promote_limits T) as HTP.
  unfold_members.
  repeat run_step.
  all: bool_to_prop; finish.
Qed.

Lemma op_pre_decr_run :
  elf_integer.op_pre_decr T this s
  = Some (this, <[this := if numeric_limits_min T <? a then a - 1 else a]> s).
Proof using Hthis Ha.
  pose proof (limits_min_max T) as HT.
  pose proof (limits_min_max (promote T)) as HP.
  pose proof (promote_limits T) as HTP.
  unfold_members.
  repeat run_step.
  all: bool_to_prop; finish.
Qed.

Lemma op_post_incr_run :
  elf_integer.op_post_incr T this s
  = Some (a, <[this := if a <? numeric_limits_max T then a + 1 else a]> s).
Proof using Hthis Ha.
  pose proof (limits_min_max T) as HT.
  pose proof (limits_min_max (promote T)) as HP.
  pose proof (promote_limits T) as HTP.
  pose proof (lookup_below_local s this a a Hthis) as Hthis'.
  unfold_locals. unfold_members.
  repeat run_step.
  all: bool_to_prop; finish.
Qed.

Lemma op_post_decr_run :
  elf_integer.op_post_decr T this s
  = Some (a, <[this := if numeric_limits_min T <? a then a - 1 else a]> s).
Proof using Hthis Ha.
  pose proof (limits_min_max T) as HT.
  pose proof (limits_min_max (promote T)) as HP.
  pose proof (promote_limits T) as HTP.
  pose proof (lookup_below_local s this a a Hthis) as Hthis'.
  unfold_locals. unfold_members.
  repeat run_step.
  all: bool_to_prop; finish.
Qed.

Lemma op_neg_run :
  elf_integer.op_neg T this s
  = Some (if a =? numeric_limits_min T then numeric_limits_min T else - a, s).
Proof using Hthis Ha.
  pose proof (limits_min_max T) as HT.
  pose proof (limits_min_max (promote T)) as HP.
  pose proof (promote_limits T) as HTP.
  pose proof (lookup_local s a) as Htmp.
  unfold_locals. unfold_members.
  repeat run_step.
  all: bool_to_prop; finish.
Qed.

End Unary.

(** ** What the compound assignments may write *)

Ltac frame_run s this :=
  unfold_members;
  destruct (s !! this) eqn:?;
  repeat run_step;
  first [discriminate | intros [= <- <-]; eauto].

Section Frame.

Variable T : int_type.
Variables (this other : addr).

Lemma op_add_assign_frame :
  writes_only this (elf_integer.op_add_assign T this other).
Proof.
  intros s x s'. destruct (s !! other) eqn:Hother; frame_run s this.
Qed.

Lemma op_sub_assign_frame :
  writes_only this (elf_integer.op_sub_assign T this other).
Proof.
  intros s x s'. destruct (s !! other) eqn:Hother; frame_run s this.
Qed.

Lemma op_mul_assign_frame :
  writes_only this (elf_integer.op_mul_assign T this other).
Proof.
  intros s x s'. destruct (s !! other) eqn:Hother; frame_run s this.
Qed.

Lemma op_div_assign_frame :
  writes_only this (elf_integer.op_div_assign T this other).
Proof.
  intros s x s'. destruct (s !! other) eqn:Hother; frame_run s this.
Qed.

Lemma op_rem_assign_frame :
  writes_only this (elf_integer.op_rem_assign T this other).
Proof.
  intros s x s'. destruct (s !! other) eqn:Hother; frame_run s this.
Qed.

End Frame.

(** A binary operator allocates [tmp], runs the compound assignment on it
    and returns it: the caller's stack is as it was. *)
Lemma binary_via_copy (assign : addr -> addr -> M addr)
    (s : stack) (this other : addr) (a : Z) :
  s !! this = Some a ->
  (forall tmp, writes_only tmp (assign tmp other)) ->
  (let* c := value this in
   let* tmp := new_local c in
   assign tmp other ;; return_local tmp) s
  = option_map (fun r => (r, s)) (copy_then_assign assign a other s).
Proof.
  intros Hthis Hframe.
  unfold copy_then_assign, bind at 1. rewrite (value_run _ _ _ Hthis).
  unfold bind at 1, new_local. unfold bind.
  destruct (assign (length s) other (s ++ [a])) as [[x s']|] eqn:Hrun;
    [|reflexivity].
  destruct (Hframe _ _ _ _ Hrun) as [-> [r ->]].
  rewrite insert_local, return_local_run, lookup_local. reflexivity.
Qed.

(** The converting constructor stores the converted value; its two
    comparisons see a value of [T] and fail. *)
Lemma ctor_from_run (T U : int_type) (s : stack) (this other : addr)
    (o w : Z) :
  s !! other = Some o -> s !! this = Some w ->
  elf_integer.ctor_from T U this other s
  = Some (tt, <[this := convert T o]> s).
Proof.
  intros Hother Hthis.
  pose proof (convert_in_range T o) as Hc. apply representable_spec in Hc.
  assert (<[this := convert T o]> s !! this = Some (convert T o)) as Hnew.
  { apply list_lookup_insert_eq. eapply lookup_lt_Some; eauto. }
  unfold_members. repeat run_step.
  all: bool_to_prop; try (exfalso; lia); reflexivity.
Qed.

(** Repeating a computation that leaves the stack as it is. *)
Lemma times_fixed {A : Type} (n : nat) (m : M A) (s : stack) (x : A) :
  m s = Some (x, s) -> times n m s = Some (tt, s).
Proof.
  intros Hm. induction n as [|n IH]; [reflexivity|].
  cbn [times]. unfold bind. rewrite Hm. exact IH.
Qed.

(** A binary operator whose compound assignment stores [r] in the copy
    returns [r] and leaves the stack as it found it. *)
Lemma binary_run (assign : addr -> addr -> M addr)
    (s : stack) (this other : addr) (a r : Z) :
  s !! this = Some a ->
  assign (length s) other (s ++ [a])
  = Some (length s, <[length s := r]> (s ++ [a])) ->
  (let* c := value this in
   let* tmp := new_local c in
   assign tmp other ;; return_local tmp) s
  = Some (r, s).
Proof.
  intros Hthis Hrun.
  unfold bind at 1. rewrite (value_run _ _ _ Hthis).
  unfold bind at 1, new_local. unfold bind. rewrite Hrun.
  rewrite insert_local. apply return_local_run.
Qed.

(** * The verified properties *)

(** ** Cross-width conversion *)

(** C1 (not met by the code).  Converting the 32-bit values 200 and -200 to
    the 8-bit type stores -56 and 56, where clamping gives 127 and -128: the
    member initialiser has already reduced the value modulo 2^8 when the
    constructor body compares it with the limits, so neither comparison can
    succeed. *)
Theorem conversion_truncates_before_clamping :
  elf_integer.ctor_from Int8 Int32 0%nat 1%nat [0; 200]
  = Some (tt, [-56; 200])
  /\ clamp Int8 200 = 127
  /\ elf_integer.ctor_from Int8 Int32 0%nat 1%nat [0; -200]
     = Some (tt, [56; -200])
  /\ clamp Int8 (-200) = -128.
Proof. repeat split; reflexivity. Qed.

(** The conversion stores the source value reduced modulo 2^N, whatever
    the source value: the two comparisons of the constructor body never
    fire. *)
Lemma conversion_is_modular (T U : int_type) (s : stack)
    (this other : addr) (o w : Z) :
  s !! other = Some o -> s !! this = Some w ->
  elf_integer.ctor_from T U this other s
  = Some (tt, <[this := convert T o]> s).
Proof. apply ctor_from_run. Qed.

(** A source value that the target type can represent, in particular every
    value of a narrower or equally wide source type, is converted
    exactly. *)
Lemma conversion_exact (T U : int_type) (s : stack)
    (this other : addr) (o w : Z) :
  s !! other = Some o -> s !! this = Some w ->
  representable T o = true ->
  elf_integer.ctor_from T U this other s
  = Some (tt, <[this := clamp T o]> s).
Proof.
  intros Hother Hthis Ho.
  rewrite (ctor_from_run T U s this other o w Hother Hthis).
  rewrite convert_representable, clamp_representable by exact Ho.
  reflexivity.
Qed.

(** ** Totality *)

(** C2 (not met by the code).  Not every arithmetic operation on in-range
    operands is free of overflow: in the 32 and 64 bit instances [a *= b]
    with [a = 1] and [b = -1] evaluates
    [numeric_limits<T>::min() / other.value], the minimum divided by -1,
    whose quotient the arithmetic type cannot represent; the operation has
    undefined behaviour, and so has [a * b]. *)
Theorem multiplication_divides_min_by_minus_one :
  representable Int32 1 = true
  /\ representable Int32 (-1) = true
  /\ int_div (promote Int32) (numeric_limits_min Int32) (-1) = None
  /\ elf_integer.op_mul_assign Int32 0%nat 1%nat [1; -1] = None
  /\ elf_integer.op_mul Int32 0%nat 1%nat [1; -1] = None
  /\ elf_integer.op_mul_assign Int64 0%nat 1%nat [1; -1] = None
  /\ elf_integer.op_mul Int64 0%nat 1%nat [1; -1] = None.
Proof. repeat split; reflexivity. Qed.

(** X8.  Every compound assignment other than [*=], and [*=] outside the
    case above, has a result, and the value it stores is in the range of [T];
    so have the increments, the decrements and the negation. *)
Lemma arithmetic_stays_in_range (T : int_type) (s : stack)
    (this other : addr) (a b : Z) :
  s !! this = Some a -> s !! other = Some b ->
  representable T a = true -> representable T b = true ->
  stores_in_range T this s (elf_integer.op_add_assign T this other s)
  /\ stores_in_range T this s (elf_integer.op_sub_assign T this other s)
  /\ stores_in_range T this s (elf_integer.op_div_assign T this other s)
  /\ stores_in_range T this s (elf_integer.op_rem_assign T this other s)
  /\ stores_in_range T this s (elf_integer.op_pre_incr T this s)
  /\ stores_in_range T this s (elf_integer.op_pre_decr T this s)
  /\ (exists r, representable T r = true
                /\ elf_integer.op_neg T this s = Some (r, s))
  /\ (bits T < 32 \/ ~ (0 < a /\ b = -1) ->
      stores_in_range T this s (elf_integer.op_mul_assign T this other s)).
Proof.
  intros Hthis Hother Ha Hb.
  pose proof (limits_min_max T) as HT.
  pose proof (quot_range (numeric_limits_max T) a b) as Hq.
  pose proof (rem_range (numeric_limits_max T) a b) as Hr.
  assert (Ha' := Ha). assert (Hb' := Hb).
  apply representable_spec in Ha', Hb'.
  repeat split.
  - eexists; split; [|apply op_add_assign_run; eassumption].
    apply clamp_in_range.
  - eexists; split; [|apply op_sub_assign_run; eassumption].
    apply clamp_in_range.
  - eexists; split; [|apply op_div_assign_run; eassumption].
    apply representable_spec.
    destruct (Z.eqb_spec b 0); [lia|].
    destruct (Z.eqb_spec a (numeric_limits_min T)), (Z.eqb_spec b (-1));
      cbn [andb]; lia.
  - eexists; split; [|apply op_rem_assign_run; eassumption].
    apply representable_spec.
    destruct (Z.eqb_spec b 0); [lia|].
    destruct (Z.eqb_spec a (numeric_limits_min T)), (Z.eqb_spec b (-1));
      cbn [andb]; lia.
  - eexists; split; [|apply op_pre_incr_run; eassumption].
    apply representable_spec.
    destruct (Z.ltb_spec a (numeric_limits_max T)); lia.
  - eexists; split; [|apply op_pre_decr_run; eassumption].
    apply representable_spec.
    destruct (Z.ltb_spec (numeric_limits_min T) a); lia.
  - eexists; split; [|apply op_neg_run; eassumption].
    apply representable_spec.
    destruct (Z.eqb_spec a (numeric_limits_min T)); lia.
  - intros Hsafe.
    eexists; split; [|apply op_mul_assign_run; eassumption].
    apply clamp_in_range.
Qed.

(** ** Multiplication *)

(** C3 (not met by the code).  The product is not always the clamped exact
    product: the 32-bit product of 5 and -1 is undefined, where clamping
    gives -5, by the division of the minimum by -1 in the second guard.  The
    8-bit products 100 * 100 = 127 and -100 * 100 = -128 are as stated. *)
Theorem product_by_minus_one_undefined :
  elf_integer.op_mul_assign Int32 0%nat 1%nat [5; -1] = None
  /\ elf_integer.op_mul Int32 0%nat 1%nat [5; -1] = None
  /\ clamp Int32 (5 * -1) = -5
  /\ elf_integer.op_mul Int8 0%nat 1%nat [100; 100] = Some (127, [100; 100])
  /\ elf_integer.op_mul Int8 0%nat 1%nat [-100; 100]
     = Some (-128, [-100; 100]).
Proof. repeat split; reflexivity. Qed.

(** X4.  Apart from that case the product is the clamped exact product: in
    the 8 and 16 bit instances always, in the 32 and 64 bit instances
    unless [a] is positive and [b] is -1. *)
Lemma product_saturates (T : int_type) (s : stack) (this other : addr)
    (a b : Z) :
  s !! this = Some a -> s !! other = Some b ->
  representable T a = true -> representable T b = true ->
  bits T < 32 \/ ~ (0 < a /\ b = -1) ->
  elf_integer.op_mul_assign T this other s
  = Some (this, <[this := clamp T (a * b)]> s)
  /\ elf_integer.op_mul T this other s = Some (clamp T (a * b), s).
Proof.
  intros Hthis Hother Ha Hb Hsafe. split.
  - apply op_mul_assign_run; assumption.
  - apply binary_run with (a := a); [exact Hthis|].
    apply op_mul_assign_run;
      eauto using lookup_local, lookup_below_local.
Qed.

(** In the 32 and 64 bit instances every product of a positive [a] and
    -1 is undefined. *)
Lemma product_undefined (T : int_type) (s : stack) (this other : addr)
    (a b : Z) :
  s !! this = Some a -> s !! other = Some b ->
  representable T a = true ->
  32 <= bits T -> 0 < a -> b = -1 ->
  elf_integer.op_mul_assign T this other s = None.
Proof. intros. eapply op_mul_assign_undefined; eauto. Qed.

(** ** Addition *)

(** C4.  For in-range [a] and [b], [a += b] stores, and [a + b] returns,
    the exact sum clamped into the range of [T]: the maximum when [b > 0]
    and [a > max - b], the minimum when [b < 0] and [a < min - b], the
    exact sum otherwise. *)
Theorem addition_saturates (T : int_type) (s : stack) (this other : addr)
    (a b : Z) :
  s !! this = Some a -> s !! other = Some b ->
  representable T a = true -> representable T b = true ->
  elf_integer.op_add_assign T this other s
  = Some (this, <[this := clamp T (a + b)]> s)
  /\ elf_integer.op_add T this other s = Some (clamp T (a + b), s)
  /\ clamp T (a + b)
     = if (0 <? b) && (numeric_limits_max T - b <? a)
       then numeric_limits_max T
       else if (b <? 0) && (a <? numeric_limits_min T - b)
            then numeric_limits_min T
            else a + b.
Proof.
  intros Hthis Hother Ha Hb. split; [|split].
  - apply op_add_assign_run; assumption.
  - apply binary_run with (a := a); [exact Hthis|].
    apply op_add_assign_run;
      eauto using lookup_local, lookup_below_local.
  - pose proof (limits_min_max T) as HT.
    apply representable_spec in Ha, Hb. unfold clamp.
    destruct (Z.ltb_spec 0 b), (Z.ltb_spec b 0),
      (Z.ltb_spec (numeric_limits_max T - b) a),
      (Z.ltb_spec a (numeric_limits_min T - b)),
      (Z.ltb_spec (a + b) (numeric_limits_min T)),
      (Z.ltb_spec (numeric_limits_max T) (a + b)); cbn [andb]; lia.
Qed.

Lemma addition_saturates_witness :
  [100; 100] !! 0%nat = Some 100
  /\ [100; 100] !! 1%nat = Some 100
  /\ representable Int8 100 = true
  /\ representable Int8 100 = true
  /\ elf_integer.op_add_assign Int8 0%nat 1%nat [100; 100]
     = Some (0%nat, [127; 100])
  /\ elf_integer.op_add Int8 0%nat 1%nat [100; 100]
     = Some (127, [100; 100]).
Proof.
  pose proof (addition_saturates Int8 [100; 100] 0%nat 1%nat 100 100
                eq_refl eq_refl eq_refl eq_refl) as [H1 [H2 _]].
  exact (conj eq_refl (conj eq_refl (conj eq_refl (conj eq_refl
          (conj H1 H2))))).
Defined.

(** ** Subtraction *)

(** C5.  For in-range [a] and [b], [a -= b] stores, and [a - b] returns,
    the exact difference clamped into the range of [T]; this includes
    [b = min(T)], where the difference is the maximum for [a >= 0] and the
    exact [a - min(T)] for [a < 0]. *)
Theorem subtraction_saturates (T : int_type) (s : stack)
    (this other : addr) (a b : Z) :
  s !! this = Some a -> s !! other = Some b ->
  representable T a = true -> representable T b = true ->
  elf_integer.op_sub_assign T this other s
  = Some (this, <[this := clamp T (a - b)]> s)
  /\ elf_integer.op_sub T this other s = Some (clamp T (a - b), s)
  /\ clamp T (a - b)
     = (if (0 <? b) && (a - b <? numeric_limits_min T)
        then numeric_limits_min T
        else if (b <? 0) && (numeric_limits_max T <? a - b)
             then numeric_limits_max T
             else a - b)
  /\ (b = numeric_limits_min T ->
      clamp T (a - b) = if 0 <=? a then numeric_limits_max T else a - b).
Proof.
  intros Hthis Hother Ha Hb. split; [|split; [|split]].
  - apply op_sub_assign_run; assumption.
  - apply binary_run with (a := a); [exact Hthis|].
    apply op_sub_assign_run;
      eauto using lookup_local, lookup_below_local.
  - pose proof (limits_min_max T) as HT.
    apply representable_spec in Ha, Hb. unfold clamp.
    destruct (Z.ltb_spec 0 b), (Z.ltb_spec b 0),
      (Z.ltb_spec (a - b) (numeric_limits_min T)),
      (Z.ltb_spec (numeric_limits_max T) (a - b)); cbn [andb]; lia.
  - intros ->. pose proof (limits_min_max T) as HT.
    apply representable_spec in Ha. unfold clamp.
    destruct (Z.leb_spec 0 a),
      (Z.ltb_spec (a - numeric_limits_min T) (numeric_limits_min T)),
      (Z.ltb_spec (numeric_limits_max T) (a - numeric_limits_min T)); lia.
Qed.

Lemma subtraction_saturates_witness :
  [-1; -128] !! 0%nat = Some (-1)
  /\ [-1; -128] !! 1%nat = Some (-128)
  /\ representable Int8 (-1) = true
  /\ representable Int8 (-128) = true
  /\ elf_integer.op_sub_assign Int8 0%nat 1%nat [-1; -128]
     = Some (0%nat, [127; -128])
  /\ elf_integer.op_sub Int8 0%nat 1%nat [-1; -128]
     = Some (127, [-1; -128]).
Proof.
  pose proof (subtraction_saturates Int8 [-1; -128] 0%nat 1%nat (-1) (-128)
                eq_refl eq_refl eq_refl eq_refl) as [H1 [H2 _]].
  exact (conj eq_refl (conj eq_refl (conj eq_refl (conj eq_refl
          (conj H1 H2))))).
Defined.

(** ** Division *)

(** C6.  For in-range [a] and [b], [a /= b] and [a / b] always have a
    result: the maximum when [b = 0], the maximum when [a = min(T)] and
    [b = -1], and the quotient truncated toward zero otherwise. *)
Theorem division_saturates (T : int_type) (s : stack) (this other : addr)
    (a b : Z) :
  s !! this = Some a -> s !! other = Some b ->
  representable T a = true -> representable T b = true ->
  let q := if b =? 0 then numeric_limits_max T
           else if (a =? numeric_limits_min T) && (b =? -1)
                then numeric_limits_max T
                else a ÷ b in
  elf_integer.op_div_assign T this other s = Some (this, <[this := q]> s)
  /\ elf_integer.op_div T this other s = Some (q, s).
Proof.
  intros Hthis Hother Ha Hb q. split.
  - apply op_div_assign_run; assumption.
  - apply binary_run with (a := a); [exact Hthis|].
    apply op_div_assign_run;
      eauto using lookup_local, lookup_below_local.
Qed.

Lemma division_saturates_witness :
  [-128; -1] !! 0%nat = Some (-128)
  /\ [-128; -1] !! 1%nat = Some (-1)
  /\ representable Int8 (-128) = true
  /\ representable Int8 (-1) = true
  /\ elf_integer.op_div_assign Int8 0%nat 1%nat [-128; -1]
     = Some (0%nat, [127; -1])
  /\ elf_integer.op_div Int8 0%nat 1%nat [-128; -1]
     = Some (127, [-128; -1]).
Proof.
  pose proof (division_saturates Int8 [-128; -1] 0%nat 1%nat (-128) (-1)
                eq_refl eq_refl eq_refl eq_refl) as [H1 H2].
  exact (conj eq_refl (conj eq_refl (conj eq_refl (conj eq_refl
          (conj H1 H2))))).
Defined.

(** ** Remainder *)

(** C7.  For in-range [a] and [b], [a %= b] stores, and [a % b] returns,
    the maximum when [b = 0], 0 when [a = min(T)] and [b = -1], and the
    remainder of the truncating division otherwise. *)
Theorem remainder_saturates (T : int_type) (s : stack) (this other : addr)
    (a b : Z) :
  s !! this = Some a -> s !! other = Some b ->
  representable T a = true -> representable T b = true ->
  let r := if b =? 0 then numeric_limits_max T
           else if (a =? numeric_limits_min T) && (b =? -1) then 0
                else Z.rem a b in
  elf_integer.op_rem_assign T this other s = Some (this, <[this := r]> s)
  /\ elf_integer.op_rem T this other s = Some (r, s).
Proof.
  intros Hthis Hother Ha Hb r. split.
  - apply op_rem_assign_run; assumption.
  - apply binary_run with (a := a); [exact Hthis|].
    apply op_rem_assign_run;
      eauto using lookup_local, lookup_below_local.
Qed.

Lemma remainder_saturates_witness :
  [-128; -1] !! 0%nat = Some (-128)
  /\ [-128; -1] !! 1%nat = Some (-1)
  /\ representable Int8 (-128) = true
  /\ representable Int8 (-1) = true
  /\ elf_integer.op_rem_assign Int8 0%nat 1%nat [-128; -1]
     = Some (0%nat, [0; -1])
  /\ elf_integer.op_rem Int8 0%nat 1%nat [-128; -1]
     = Some (0, [-128; -1]).
Proof.
  pose proof (remainder_saturates Int8 [-128; -1] 0%nat 1%nat (-128) (-1)
                eq_refl eq_refl eq_refl eq_refl) as [H1 H2].
  exact (conj eq_refl (conj eq_refl (conj eq_refl (conj eq_refl
          (conj H1 H2))))).
Defined.

(** ** Negation *)

(** C8.  For an in-range [a], unary minus returns [-a] when [a] is not the
    minimum and the minimum itself when it is; the stack, and with it the
    operand, is as before. *)
Theorem negation_saturates (T : int_type) (s : stack) (this : addr)
    (a : Z) :
  s !! this = Some a -> representable T a = true ->
  elf_integer.op_neg T this s
  = Some (if a =? numeric_limits_min T then numeric_limits_min T else - a, s).
Proof. intros Hthis Ha. apply op_neg_run; assumption. Qed.

Lemma negation_saturates_witness :
  [-128] !! 0%nat = Some (-128)
  /\ representable Int8 (-128) = true
  /\ elf_integer.op_neg Int8 0%nat [-128] = Some (-128, [-128]).
Proof.
  exact (conj eq_refl (conj eq_refl
          (negation_saturates Int8 [-128] 0%nat (-128) eq_refl eq_refl))).
Defined.

(** ** Increment and decrement *)

(** C9.  For an in-range [a], both forms of [++] store [a + 1] when
    [a < max(T)] and leave [a] when [a = max(T)]; both forms of [--] store
    [a - 1] when [a > min(T)] and leave [a] when [a = min(T)]; the prefix
    forms return the object, the postfix forms the old value.  Any number
    of increments of the maximum, and of decrements of the minimum, has a
    result and leaves the stack as it is. *)
Theorem increment_decrement_saturate (T : int_type) (s : stack)
    (this : addr) (a : Z) :
  s !! this = Some a -> representable T a = true ->
  let up := if a <? numeric_limits_max T then a + 1 else a in
  let down := if numeric_limits_min T <? a then a - 1 else a in
  elf_integer.op_pre_incr T this s = Some (this, <[this := up]> s)
  /\ elf_integer.op_post_incr T this s = Some (a, <[this := up]> s)
  /\ elf_integer.op_pre_decr T this s = Some (this, <[this := down]> s)
  /\ elf_integer.op_post_decr T this s = Some (a, <[this := down]> s)
  /\ (a = numeric_limits_max T ->
      forall n : nat,
        times n (elf_integer.op_pre_incr T this) s = Some (tt, s)
        /\ times n (elf_integer.op_post_incr T this) s = Some (tt, s))
  /\ (a = numeric_limits_min T ->
      forall n : nat,
        times n (elf_integer.op_pre_decr T this) s = Some (tt, s)
        /\ times n (elf_integer.op_post_decr T this) s = Some (tt, s)).
Proof.
  intros Hthis Ha up down.
  pose proof (op_pre_incr_run T s this a Hthis Ha) as Hpre_i.
  pose proof (op_post_incr_run T s this a Hthis Ha) as Hpost_i.
  pose proof (op_pre_decr_run T s this a Hthis Ha) as Hpre_d.
  pose proof (op_post_decr_run T s this a Hthis Ha) as Hpost_d.
  repeat split; try assumption.
  - apply times_fixed with (x := this). rewrite Hpre_i.
    rewrite (proj2 (Z.ltb_ge a (numeric_limits_max T))) by lia.
    rewrite list_insert_id by exact Hthis. reflexivity.
  - apply times_fixed with (x := a). rewrite Hpost_i.
    rewrite (proj2 (Z.ltb_ge a (numeric_limits_max T))) by lia.
    rewrite list_insert_id by exact Hthis. reflexivity.
  - apply times_fixed with (x := this). rewrite Hpre_d.
    rewrite (proj2 (Z.ltb_ge (numeric_limits_min T) a)) by lia.
    rewrite list_insert_id by exact Hthis. reflexivity.
  - apply times_fixed with (x := a). rewrite Hpost_d.
    rewrite (proj2 (Z.ltb_ge (numeric_limits_min T) a)) by lia.
    rewrite list_insert_id by exact Hthis. reflexivity.
Qed.

Lemma increment_decrement_saturate_witness :
  [127] !! 0%nat = Some 127
  /\ representable Int8 127 = true
  /\ elf_integer.op_pre_incr Int8 0%nat [127] = Some (0%nat, [127])
  /\ elf_integer.op_post_incr Int8 0%nat [127] = Some (127, [127])
  /\ elf_integer.op_pre_decr Int8 0%nat [127] = Some (0%nat, [126])
  /\ elf_integer.op_post_decr Int8 0%nat [127] = Some (127, [126])
  /\ times 3 (elf_integer.op_pre_incr Int8 0%nat) [127] = Some (tt, [127]).
Proof.
  pose proof (increment_decrement_saturate Int8 [127] 0%nat 127
                eq_refl eq_refl) as [H1 [H2 [H3 [H4 [H5 _]]]]].
  exact (conj eq_refl (conj eq_refl (conj H1 (conj H2 (conj H3 (conj H4
          (proj1 (H5 eq_refl 3%nat)))))))).
Defined.

(** ** Binary operators *)

(** C10.  Whatever the values of the operands, each of [a + b], [a - b],
    [a * b], [a / b] and [a % b] has the result that the corresponding
    compound assignment produces on a new instance holding a copy of [a],
    it is undefined exactly when that assignment is, and it leaves the stack,
    hence both operands, as before. *)
Theorem binary_operators_copy_then_assign (T : int_type) (s : stack)
    (this other : addr) (a : Z) :
  s !! this = Some a ->
  elf_integer.op_add T this other s
  = option_map (fun r => (r, s))
      (copy_then_assign (elf_integer.op_add_assign T) a other s)
  /\ elf_integer.op_sub T this other s
     = option_map (fun r => (r, s))
         (copy_then_assign (elf_integer.op_sub_assign T) a other s)
  /\ elf_integer.op_mul T this other s
     = option_map (fun r => (r, s))
         (copy_then_assign (elf_integer.op_mul_assign T) a other s)
  /\ elf_integer.op_div T this other s
     = option_map (fun r => (r, s))
         (copy_then_assign (elf_integer.op_div_assign T) a other s)
  /\ elf_integer.op_rem T this other s
     = option_map (fun r => (r, s))
         (copy_then_assign (elf_integer.op_rem_assign T) a other s).
Proof.
  intros Hthis.
  repeat split; apply binary_via_copy; try exact Hthis; intros tmp.
  - apply op_add_assign_frame.
  - apply op_sub_assign_frame.
  - apply op_mul_assign_frame.
  - apply op_div_assign_frame.
  - apply op_rem_assign_frame.
Qed.

Lemma binary_operators_copy_then_assign_witness :
  [100; 100] !! 0%nat = Some 100
  /\ elf_integer.op_add Int8 0%nat 1%nat [100; 100]
     = Some (127, [100; 100])
  /\ elf_integer.op_mul Int32 0%nat 1%nat [5; -1] = None.
Proof.
  pose proof (binary_operators_copy_then_assign Int8 [100; 100] 0%nat 1%nat
                100 eq_refl) as [H1 _].
  pose proof (binary_operators_copy_then_assign Int32 [5; -1] 0%nat 1%nat
                5 eq_refl) as [_ [_ [H3 _]]].
  exact (conj eq_refl (conj H1 H3)).
Defined.

(** * Further properties of the class *)

(** ** Conversion *)

Lemma representable_wider (T U : int_type) (z : Z) :
  bits U <= bits T -> representable U z = true -> representable T z = true.
Proof.
  intros Hw. rewrite !representable_spec.
  unfold numeric_limits_min, numeric_limits_max.
  pose proof (Z.pow_le_mono_r 2 (bits U - 1) (bits T - 1)). lia.
Qed.

Lemma convert_congruent (T : int_type) (z : Z) :
  (convert T z - z) mod 2 ^ bits T = 0.
Proof.
  unfold convert.
  assert (0 < 2 ^ bits T) by (destruct T; reflexivity).
  pose proof (Z.div_mod (z + 2 ^ (bits T - 1)) (2 ^ bits T)) as Hd.
  replace ((z + 2 ^ (bits T - 1)) mod 2 ^ bits T - 2 ^ (bits T - 1) - z)
    with (- ((z + 2 ^ (bits T - 1)) / 2 ^ bits T) * 2 ^ bits T) by lia.
  apply Z.mod_mul. lia.
Qed.

(** X1.  Converting from a type that is no wider than the target is exact:
    every value of [U] is stored unchanged. *)
Theorem conversion_widening_exact (T U : int_type) (s : stack)
    (this other : addr) (o w : Z) :
  s !! other = Some o -> s !! this = Some w ->
  bits U <= bits T -> representable U o = true ->
  elf_integer.ctor_from T U this other s = Some (tt, <[this := o]> s).
Proof.
  intros Hother Hthis Hw Ho.
  rewrite (ctor_from_run T U s this other o w Hother Hthis).
  rewrite convert_representable by (eapply representable_wider; eauto).
  reflexivity.
Qed.

Lemma conversion_widening_exact_witness :
  [0; -128] !! 1%nat = Some (-128)
  /\ [0; -128] !! 0%nat = Some 0
  /\ bits Int8 <= bits Int64
  /\ representable Int8 (-128) = true
  /\ elf_integer.ctor_from Int64 Int8 0%nat 1%nat [0; -128]
     = Some (tt, [-128; -128]).
Proof.
  assert (bits Int8 <= bits Int64) as Hw by (vm_compute; discriminate).
  exact (conj eq_refl (conj eq_refl (conj Hw (conj eq_refl
          (conversion_widening_exact Int64 Int8 [0; -128] 0%nat 1%nat
             (-128) 0 eq_refl eq_refl Hw eq_refl))))).
Defined.

(** X2.  Whatever the source value, the conversion stores a value of the
    range of [T] that is congruent to the source value modulo 2^N, N the
    width of [T]: a source value outside the range of [T] wraps around. *)
Theorem conversion_wraps (T U : int_type) (s : stack)
    (this other : addr) (o w : Z) :
  s !! other = Some o -> s !! this = Some w ->
  exists r,
    elf_integer.ctor_from T U this other s = Some (tt, <[this := r]> s)
    /\ representable T r = true
    /\ (r - o) mod 2 ^ bits T = 0
    /\ (representable T o = false -> r <> o).
Proof.
  intros Hother Hthis. exists (convert T o).
  split; [eapply ctor_from_run; eauto|].
  split; [apply convert_in_range|].
  split; [apply convert_congruent|].
  intros Ho Heq. pose proof (convert_in_range T o) as Hc.
  rewrite Heq in Hc. congruence.
Qed.

Lemma conversion_wraps_witness :
  [0; 383] !! 1%nat = Some 383
  /\ [0; 383] !! 0%nat = Some 0
  /\ exists r,
       elf_integer.ctor_from Int8 Int32 0%nat 1%nat [0; 383]
       = Some (tt, <[0%nat := r]> [0; 383])
       /\ representable Int8 r = true
       /\ (r - 383) mod 2 ^ bits Int8 = 0
       /\ (representable Int8 383 = false -> r <> 383).
Proof.
  exact (conj eq_refl (conj eq_refl
          (conversion_wraps Int8 Int32 [0; 383] 0%nat 1%nat 383 0
             eq_refl eq_refl))).
Defined.

(** X3.  Converting a value of [T] to a type [U] at least as wide and
    converting the result back yields the value again. *)
Theorem conversion_round_trip (T U : int_type) (s : stack)
    (x y z : addr) (v wy wz : Z) :
  s !! x = Some v -> s !! y = Some wy -> s !! z = Some wz ->
  bits T <= bits U -> representable T v = true ->
  (elf_integer.ctor_from U T y x ;; elf_integer.ctor_from T U z y) s
  = Some (tt, <[z := v]> (<[y := v]> s)).
Proof.
  intros Hx Hy Hz Hw Hv. unfold bind.
  rewrite (ctor_from_run U T s y x v wy Hx Hy).
  rewrite (convert_representable U v)
    by (eapply representable_wider; eauto).
  assert (<[y := v]> s !! y = Some v) as Hy'.
  { apply list_lookup_insert_eq. eapply lookup_lt_Some; eauto. }
  destruct (lookup_lt_is_Some_2 (<[y := v]> s) z) as [w' Hz'].
  { rewrite length_insert. eapply lookup_lt_Some; eauto. }
  rewrite (ctor_from_run T U _ z y v w' Hy' Hz').
  rewrite convert_representable by exact Hv. reflexivity.
Qed.

Lemma conversion_round_trip_witness :
  [-100; 0; 0] !! 0%nat = Some (-100)
  /\ [-100; 0; 0] !! 1%nat = Some 0
  /\ [-100; 0; 0] !! 2%nat = Some 0
  /\ bits Int8 <= bits Int32
  /\ representable Int8 (-100) = true
  /\ (elf_integer.ctor_from Int32 Int8 1%nat 0%nat ;;
      elf_integer.ctor_from Int8 Int32 2%nat 1%nat) [-100; 0; 0]
     = Some (tt, [-100; -100; -100]).
Proof.
  assert (bits Int8 <= bits Int32) as Hw by (vm_compute; discriminate).
  exact (conj eq_refl (conj eq_refl (conj eq_refl (conj Hw (conj eq_refl
          (conversion_round_trip Int8 Int32 [-100; 0; 0] 0%nat 1%nat 2%nat
             (-100) 0 0 eq_refl eq_refl eq_refl Hw eq_refl)))))).
Defined.

(** ** Multiplication, continued *)

Lemma product_saturates_witness :
  [-128; -1] !! 0%nat = Some (-128)
  /\ [-128; -1] !! 1%nat = Some (-1)
  /\ representable Int8 (-128) = true
  /\ representable Int8 (-1) = true
  /\ (bits Int8 < 32 \/ ~ (0 < -128 /\ -1 = -1))
  /\ elf_integer.op_mul_assign Int8 0%nat 1%nat [-128; -1]
     = Some (0%nat, [127; -1])
  /\ elf_integer.op_mul Int8 0%nat 1%nat [-128; -1]
     = Some (127, [-128; -1]).
Proof.
  assert (bits Int8 < 32 \/ ~ (0 < -128 /\ -1 = -1)) as Hsafe
    by (left; reflexivity).
  exact (conj eq_refl (conj eq_refl (conj eq_refl (conj eq_refl (conj Hsafe
          (product_saturates Int8 [-128; -1] 0%nat 1%nat (-128) (-1)
             eq_refl eq_refl eq_refl eq_refl Hsafe)))))).
Defined.

(** X5.  On in-range operands [a *= b] is undefined in exactly one case:
    a 32 or 64 bit instance, [a] positive and [b = -1]. *)
Theorem multiplication_undefined_iff (T : int_type) (s : stack)
    (this other : addr) (a b : Z) :
  s !! this = Some a -> s !! other = Some b ->
  representable T a = true -> representable T b = true ->
  elf_integer.op_mul_assign T this other s = None
  <-> 32 <= bits T /\ 0 < a /\ b = -1.
Proof.
  intros Hthis Hother Ha Hb. split.
  - intros Hnone.
    destruct (Z_lt_le_dec (bits T) 32) as [Hn|Hw].
    + rewrite (op_mul_assign_run T s this other a b Hthis Hother Ha Hb)
        in Hnone by (left; exact Hn).
      discriminate.
    + destruct (Z_lt_le_dec 0 a) as [Ha0|Ha0], (Z.eq_dec b (-1)) as [Hb1|Hb1];
        [auto | | | ];
        (rewrite (op_mul_assign_run T s this other a b Hthis Hother Ha Hb)
           in Hnone by (right; lia);
         discriminate).
  - intros [Hw [Ha0 Hb1]].
    eapply op_mul_assign_undefined; eauto.
Qed.

Lemma multiplication_undefined_iff_witness :
  [7; -1] !! 0%nat = Some 7
  /\ [7; -1] !! 1%nat = Some (-1)
  /\ representable Int64 7 = true
  /\ representable Int64 (-1) = true
  /\ (elf_integer.op_mul_assign Int64 0%nat 1%nat [7; -1] = None
      <-> 32 <= bits Int64 /\ 0 < 7 /\ -1 = -1).
Proof.
  exact (conj eq_refl (conj eq_refl (conj eq_refl (conj eq_refl
          (multiplication_undefined_iff Int64 [7; -1] 0%nat 1%nat 7 (-1)
             eq_refl eq_refl eq_refl eq_refl))))).
Defined.

(** X6.  With -1 as the left operand the product with a positive [a] is
    defined in every instance and is exactly [-a]. *)
Theorem minus_one_times_positive (T : int_type) (s : stack)
    (this other : addr) (a : Z) :
  s !! this = Some (-1) -> s !! other = Some a ->
  representable T a = true -> 0 < a ->
  elf_integer.op_mul_assign T this other s = Some (this, <[this := - a]> s)
  /\ elf_integer.op_mul T this other s = Some (- a, s).
Proof.
  intros Hthis Hother Ha Ha0.
  assert (representable T (-1) = true) as Hm.
  { apply representable_spec. pose proof (limits_min_max T). lia. }
  assert (clamp T (-1 * a) = - a) as Hc.
  { apply representable_spec in Ha. pose proof (limits_min_max T).
    rewrite clamp_representable; [lia|]. apply representable_spec. lia. }
  rewrite <- Hc. split.
  - apply op_mul_assign_run; try assumption. right. lia.
  - apply binary_run with (a := -1); [exact Hthis|].
    apply op_mul_assign_run;
      eauto using lookup_local, lookup_below_local. right. lia.
Qed.

Lemma minus_one_times_positive_witness :
  [-1; 5] !! 0%nat = Some (-1)
  /\ [-1; 5] !! 1%nat = Some 5
  /\ representable Int32 5 = true
  /\ 0 < 5
  /\ elf_integer.op_mul_assign Int32 0%nat 1%nat [-1; 5]
     = Some (0%nat, [-5; 5])
  /\ elf_integer.op_mul Int32 0%nat 1%nat [-1; 5] = Some (-5, [-1; 5]).
Proof.
  exact (conj eq_refl (conj eq_refl (conj eq_refl (conj eq_refl
          (minus_one_times_positive Int32 [-1; 5] 0%nat 1%nat 5
             eq_refl eq_refl eq_refl eq_refl))))).
Defined.

(** X7.  In the 8 and 16 bit instances the product does not depend on the
    order of the operands. *)
Theorem multiplication_commutes_narrow (T : int_type) (s : stack)
    (this other : addr) (a b : Z) :
  s !! this = Some a -> s !! other = Some b ->
  representable T a = true -> representable T b = true ->
  bits T < 32 ->
  elf_integer.op_mul T this other s = elf_integer.op_mul T other this s.
Proof.
  intros Hthis Hother Ha Hb Hn.
  transitivity (Some (clamp T (a * b), s)).
  - apply binary_run with (a := a); [exact Hthis|].
    apply op_mul_assign_run;
      eauto using lookup_local, lookup_below_local.
  - symmetry. rewrite Z.mul_comm.
    apply binary_run with (a := b); [exact Hother|].
    apply op_mul_assign_run;
      eauto using lookup_local, lookup_below_local.
Qed.

Lemma multiplication_commutes_narrow_witness :
  [-100; 100] !! 0%nat = Some (-100)
  /\ [-100; 100] !! 1%nat = Some 100
  /\ representable Int8 (-100) = true
  /\ representable Int8 100 = true
  /\ bits Int8 < 32
  /\ elf_integer.op_mul Int8 0%nat 1%nat [-100; 100]
     = elf_integer.op_mul Int8 1%nat 0%nat [-100; 100].
Proof.
  exact (conj eq_refl (conj eq_refl (conj eq_refl (conj eq_refl
          (conj eq_refl
          (multiplication_commutes_narrow Int8 [-100; 100] 0%nat 1%nat
             (-100) 100 eq_refl eq_refl eq_refl eq_refl eq_refl)))))).
Defined.

(** ** The range invariant and the frame *)

Lemma arithmetic_stays_in_range_witness :
  [127; 2] !! 0%nat = Some 127
  /\ [127; 2] !! 1%nat = Some 2
  /\ representable Int8 127 = true
  /\ representable Int8 2 = true
  /\ stores_in_range Int8 0%nat [127; 2]
       (elf_integer.op_add_assign Int8 0%nat 1%nat [127; 2])
  /\ stores_in_range Int8 0%nat [127; 2]
       (elf_integer.op_rem_assign Int8 0%nat 1%nat [127; 2]).
Proof.
  pose proof (arithmetic_stays_in_range Int8 [127; 2] 0%nat 1%nat 127 2
                eq_refl eq_refl eq_refl eq_refl) as [H1 [_ [_ [H4 _]]]].
  exact (conj eq_refl (conj eq_refl (conj eq_refl (conj eq_refl
          (conj H1 H4))))).
Defined.

Lemma writes_only_others (this : addr) (m : M addr) (s s' : stack)
    (x : addr) :
  writes_only this m -> m s = Some (x, s') ->
  x = this /\ length s' = length s
  /\ forall l, l <> this -> s' !! l = s !! l.
Proof.
  intros Hw Hrun. destruct (Hw s x s' Hrun) as [-> [r ->]].
  split; [reflexivity|]. split; [apply length_insert|].
  intros l Hl. apply list_lookup_insert_ne. congruence.
Qed.

(** X9.  Whatever the stack holds, a compound assignment that has a result
    returns the reference to its left operand, keeps the number of objects
    and changes no object other than the left operand; in particular the
    right operand, when it is a different object, keeps its value. *)
Theorem compound_assignment_frame (T : int_type) (s s' : stack)
    (this other x : addr) :
  elf_integer.op_add_assign T this other s = Some (x, s')
  \/ elf_integer.op_sub_assign T this other s = Some (x, s')
  \/ elf_integer.op_mul_assign T this other s = Some (x, s')
  \/ elf_integer.op_div_assign T this other s = Some (x, s')
  \/ elf_integer.op_rem_assign T this other s = Some (x, s') ->
  x = this /\ length s' = length s
  /\ forall l, l <> this -> s' !! l = s !! l.
Proof.
  intros [H|[H|[H|[H|H]]]];
    eapply writes_only_others; try exact H.
  - apply op_add_assign_frame.
  - apply op_sub_assign_frame.
  - apply op_mul_assign_frame.
  - apply op_div_assign_frame.
  - apply op_rem_assign_frame.
Qed.

Lemma compound_assignment_frame_witness :
  (elf_integer.op_add_assign Int16 1%nat 2%nat [7; 30000; 30000]
   = Some (1%nat, [7; 32767; 30000])
   \/ elf_integer.op_sub_assign Int16 1%nat 2%nat [7; 30000; 30000]
      = Some (1%nat, [7; 32767; 30000])
   \/ elf_integer.op_mul_assign Int16 1%nat 2%nat [7; 30000; 30000]
      = Some (1%nat, [7; 32767; 30000])
   \/ elf_integer.op_div_assign Int16 1%nat 2%nat [7; 30000; 30000]
      = Some (1%nat, [7; 32767; 30000])
   \/ elf_integer.op_rem_assign Int16 1%nat 2%nat [7; 30000; 30000]
      = Some (1%nat, [7; 32767; 30000]))
  /\ (1%nat = 1%nat
      /\ length [7; 32767; 30000] = length [7; 30000; 30000]
      /\ forall l, l <> 1%nat ->
           [7; 32767; 30000] !! l = [7; 30000; 30000] !! l).
Proof.
  assert (elf_integer.op_add_assign Int16 1%nat 2%nat [7; 30000; 30000]
          = Some (1%nat, [7; 32767; 30000])) as H by reflexivity.
  exact (conj (or_introl H)
          (compound_assignment_frame Int16 [7; 30000; 30000]
             [7; 32767; 30000] 1%nat 2%nat 1%nat (or_introl H))).
Defined.

(** ** Saturation as the only deviation from exact arithmetic *)

(** X10.  A sum, difference or product stored by a compound assignment
    that lies strictly between the limits is the exact one: only a result
    equal to a limit can stem from saturation. *)
Theorem inside_limits_is_exact (T : int_type) (s s' : stack)
    (this other : addr) (a b r : Z) :
  s !! this = Some a -> s !! other = Some b ->
  representable T a = true -> representable T b = true ->
  s' !! this = Some r ->
  numeric_limits_min T < r < numeric_limits_max T ->
  (elf_integer.op_add_assign T this other s = Some (this, s') -> r = a + b)
  /\ (elf_integer.op_sub_assign T this other s = Some (this, s')
      -> r = a - b)
  /\ (elf_integer.op_mul_assign T this other s = Some (this, s')
      -> r = a * b).
Proof.
  intros Hthis Hother Ha Hb Hr Hin.
  assert (forall z, <[this := clamp T z]> s = s' -> r = z) as Hex.
  { intros z <-.
    rewrite list_lookup_insert_eq in Hr by (eapply lookup_lt_Some; eauto).
    injection Hr as <-. revert Hin. unfold clamp.
    destruct (Z.ltb_spec z (numeric_limits_min T));
      [|destruct (Z.ltb_spec (numeric_limits_max T) z)]; lia. }
  repeat split; intros Hrun; apply Hex.
  - rewrite (op_add_assign_run T s this other a b Hthis Hother Ha Hb)
      in Hrun. congruence.
  - rewrite (op_sub_assign_run T s this other a b Hthis Hother Ha Hb)
      in Hrun. congruence.
  - destruct (Z_lt_le_dec (bits T) 32) as [Hn|Hw];
      [|destruct (Z_lt_le_dec 0 a) as [Ha0|Ha0];
        [destruct (Z.eq_dec b (-1)) as [Hb1|Hb1]|]].
    + rewrite (op_mul_assign_run T s this other a b Hthis Hother Ha Hb)
        in Hrun by (left; exact Hn). congruence.
    + rewrite (op_mul_assign_undefined T s this other a b Hthis Hother Ha)
        in Hrun by assumption. discriminate.
    + rewrite (op_mul_assign_run T s this other a b Hthis Hother Ha Hb)
        in Hrun by (right; lia). congruence.
    + rewrite (op_mul_assign_run T s this other a b Hthis Hother Ha Hb)
        in Hrun by (right; lia). congruence.
Qed.

Lemma inside_limits_is_exact_witness :
  [3; 4] !! 0%nat = Some 3
  /\ [3; 4] !! 1%nat = Some 4
  /\ representable Int8 3 = true
  /\ representable Int8 4 = true
  /\ [7; 4] !! 0%nat = Some 7
  /\ numeric_limits_min Int8 < 7 < numeric_limits_max Int8
  /\ elf_integer.op_add_assign Int8 0%nat 1%nat [3; 4] = Some (0%nat, [7; 4])
  /\ 7 = 3 + 4.
Proof.
  assert (numeric_limits_min Int8 < 7 < numeric_limits_max Int8) as Hin
    by (vm_compute; split; reflexivity).
  exact (conj eq_refl (conj eq_refl (conj eq_refl (conj eq_refl
          (conj eq_refl (conj Hin (conj eq_refl
          (proj1 (inside_limits_is_exact Int8 [3; 4] [7; 4] 0%nat 1%nat
                    3 4 7 eq_refl eq_refl eq_refl eq_refl eq_refl Hin)
                 eq_refl)))))))).
Defined.

(** X11.  Addition and subtraction never wrap: adding a non-negative value
    does not decrease the left operand and adding a non-positive one does
    not increase it; subtraction behaves the other way round. *)
Theorem addition_subtraction_never_wrap (T : int_type) (s : stack)
    (this other : addr) (a b : Z) :
  s !! this = Some a -> s !! other = Some b ->
  representable T a = true -> representable T b = true ->
  exists p m,
    elf_integer.op_add_assign T this other s = Some (this, <[this := p]> s)
    /\ elf_integer.op_sub_assign T this other s
       = Some (this, <[this := m]> s)
    /\ (0 <= b -> a <= p /\ m <= a)
    /\ (b <= 0 -> p <= a /\ a <= m).
Proof.
  intros Hthis Hother Ha Hb.
  exists (clamp T (a + b)), (clamp T (a - b)).
  split; [apply op_add_assign_run; assumption|].
  split; [apply op_sub_assign_run; assumption|].
  apply representable_spec in Ha, Hb. unfold clamp.
  destruct (Z.ltb_spec (a + b) (numeric_limits_min T)),
    (Z.ltb_spec (numeric_limits_max T) (a + b)),
    (Z.ltb_spec (a - b) (numeric_limits_min T)),
    (Z.ltb_spec (numeric_limits_max T) (a - b)); lia.
Qed.

Lemma addition_subtraction_never_wrap_witness :
  [100; 100] !! 0%nat = Some 100
  /\ [100; 100] !! 1%nat = Some 100
  /\ representable Int8 100 = true
  /\ representable Int8 100 = true
  /\ exists p m,
       elf_integer.op_add_assign Int8 0%nat 1%nat [100; 100]
       = Some (0%nat, <[0%nat := p]> [100; 100])
       /\ elf_integer.op_sub_assign Int8 0%nat 1%nat [100; 100]
          = Some (0%nat, <[0%nat := m]> [100; 100])
       /\ (0 <= 100 -> 100 <= p /\ m <= 100)
       /\ (100 <= 0 -> p <= 100 /\ 100 <= m).
Proof.
  exact (conj eq_refl (conj eq_refl (conj eq_refl (conj eq_refl
          (addition_subtraction_never_wrap Int8 [100; 100] 0%nat 1%nat
             100 100 eq_refl eq_refl eq_refl eq_refl))))).
Defined.

(** X12.  The sum does not depend on the order of the operands. *)
Theorem addition_commutes (T : int_type) (s : stack)
    (this other : addr) (a b : Z) :
  s !! this = Some a -> s !! other = Some b ->
  representable T a = true -> representable T b = true ->
  elf_integer.op_add T this other s = elf_integer.op_add T other this s.
Proof.
  intros Hthis Hother Ha Hb.
  transitivity (Some (clamp T (a + b), s)).
  - apply binary_run with (a := a); [exact Hthis|].
    apply op_add_assign_run;
      eauto using lookup_local, lookup_below_local.
  - symmetry. rewrite Z.add_comm.
    apply binary_run with (a := b); [exact Hother|].
    apply op_add_assign_run;
      eauto using lookup_local, lookup_below_local.
Qed.

Lemma addition_commutes_witness :
  [-100; 27] !! 0%nat = Some (-100)
  /\ [-100; 27] !! 1%nat = Some 27
  /\ representable Int8 (-100) = true
  /\ representable Int8 27 = true
  /\ elf_integer.op_add Int8 0%nat 1%nat [-100; 27]
     = elf_integer.op_add Int8 1%nat 0%nat [-100; 27].
Proof.
  exact (conj eq_refl (conj eq_refl (conj eq_refl (conj eq_refl
          (addition_commutes Int8 [-100; 27] 0%nat 1%nat (-100) 27
             eq_refl eq_refl eq_refl eq_refl))))).
Defined.

(** X13.  Neutral and absorbing operands: adding or subtracting 0 and
    multiplying or dividing by 1 leave an in-range left operand as it is,
    multiplying by 0 gives 0 and the remainder by 1 is 0. *)
Theorem neutral_operands (T : int_type) (s : stack)
    (this other : addr) (a b : Z) :
  s !! this = Some a -> s !! other = Some b ->
  representable T a = true ->
  (b = 0 ->
   elf_integer.op_add_assign T this other s = Some (this, s)
   /\ elf_integer.op_sub_assign T this other s = Some (this, s)
   /\ elf_integer.op_mul_assign T this other s
      = Some (this, <[this := 0]> s))
  /\ (b = 1 ->
      elf_integer.op_mul_assign T this other s = Some (this, s)
      /\ elf_integer.op_div_assign T this other s = Some (this, s)
      /\ elf_integer.op_rem_assign T this other s
         = Some (this, <[this := 0]> s)).
Proof.
  intros Hthis Hother Ha.
  assert (Hid : <[this := a]> s = s) by (apply list_insert_id; exact Hthis).
  pose proof (limits_min_max T) as HT.
  split; intros ->.
  - assert (representable T 0 = true) as Hb
      by (apply representable_spec; lia).
    rewrite (op_add_assign_run T s this other a 0 Hthis Hother Ha Hb).
    rewrite (op_sub_assign_run T s this other a 0 Hthis Hother Ha Hb).
    rewrite (op_mul_assign_run T s this other a 0 Hthis Hother Ha Hb)
      by (right; lia).
    rewrite Z.add_0_r, Z.sub_0_r, Z.mul_0_r.
    rewrite !(clamp_representable T a Ha), (clamp_representable T 0 Hb).
    rewrite Hid. auto.
  - assert (representable T 1 = true) as Hb
      by (apply representable_spec; lia).
    rewrite (op_mul_assign_run T s this other a 1 Hthis Hother Ha Hb)
      by (right; lia).
    rewrite (op_div_assign_run T s this other a 1 Hthis Hother Ha Hb).
    rewrite (op_rem_assign_run T s this other a 1 Hthis Hother Ha Hb).
    rewrite Z.mul_1_r, Z.quot_1_r, Z.rem_1_r.
    rewrite (clamp_representable T a Ha).
    rewrite andb_false_r. cbn [Z.eqb]. rewrite Hid. auto.
Qed.

Lemma neutral_operands_witness :
  [-128; 1] !! 0%nat = Some (-128)
  /\ [-128; 1] !! 1%nat = Some 1
  /\ representable Int8 (-128) = true
  /\ elf_integer.op_mul_assign Int8 0%nat 1%nat [-128; 1]
     = Some (0%nat, [-128; 1])
  /\ elf_integer.op_div_assign Int8 0%nat 1%nat [-128; 1]
     = Some (0%nat, [-128; 1])
  /\ elf_integer.op_rem_assign Int8 0%nat 1%nat [-128; 1]
     = Some (0%nat, <[0%nat := 0]> [-128; 1]).
Proof.
  exact (conj eq_refl (conj eq_refl (conj eq_refl
          (proj2 (neutral_operands Int8 [-128; 1] 0%nat 1%nat (-128) 1
                    eq_refl eq_refl eq_refl) eq_refl)))).
Defined.

(** ** One object as both operands *)

(** X14.  With the same object on both sides, [a += a] stores the clamped
    double, [a -= a] stores 0, [a /= a] stores 1 and [a %= a] stores 0,
    the last two storing the maximum when [a] is 0. *)
Theorem self_assignment (T : int_type) (s : stack) (this : addr) (a : Z) :
  s !! this = Some a -> representable T a = true ->
  elf_integer.op_add_assign T this this s
  = Some (this, <[this := clamp T (2 * a)]> s)
  /\ elf_integer.op_sub_assign T this this s = Some (this, <[this := 0]> s)
  /\ elf_integer.op_div_assign T this this s
     = Some (this, <[this := if a =? 0 then numeric_limits_max T else 1]> s)
  /\ elf_integer.op_rem_assign T this this s
     = Some (this, <[this := if a =? 0 then numeric_limits_max T else 0]> s).
Proof.
  intros Hthis Ha.
  pose proof (limits_min_max T) as HT.
  rewrite (op_add_assign_run T s this this a a Hthis Hthis Ha Ha).
  rewrite (op_sub_assign_run T s this this a a Hthis Hthis Ha Ha).
  rewrite (op_div_assign_run T s this this a a Hthis Hthis Ha Ha).
  rewrite (op_rem_assign_run T s this this a a Hthis Hthis Ha Ha).
  replace (a + a) with (2 * a) by lia. rewrite Z.sub_diag.
  rewrite (clamp_representable T 0) by (apply representable_spec; lia).
  repeat split.
  - destruct (Z.eqb_spec a 0) as [|Hn]; [reflexivity|].
    rewrite Z.quot_same by exact Hn.
    destruct (Z.eqb_spec a (numeric_limits_min T)); [|reflexivity].
    destruct (Z.eqb_spec a (-1)); [|reflexivity]. lia.
  - destruct (Z.eqb_spec a 0) as [|Hn]; [reflexivity|].
    rewrite Z.rem_same by exact Hn.
    destruct ((a =? numeric_limits_min T) && (a =? -1)); reflexivity.
Qed.

Lemma self_assignment_witness :
  [-128] !! 0%nat = Some (-128)
  /\ representable Int8 (-128) = true
  /\ elf_integer.op_add_assign Int8 0%nat 0%nat [-128]
     = Some (0%nat, [-128])
  /\ elf_integer.op_sub_assign Int8 0%nat 0%nat [-128] = Some (0%nat, [0])
  /\ elf_integer.op_div_assign Int8 0%nat 0%nat [-128] = Some (0%nat, [1])
  /\ elf_integer.op_rem_assign Int8 0%nat 0%nat [-128] = Some (0%nat, [0]).
Proof.
  exact (conj eq_refl (conj eq_refl
          (self_assignment Int8 [-128] 0%nat (-128) eq_refl eq_refl))).
Defined.

(** ** Negation, increment and decrement against the other operators *)

(** X15.  Negating twice gives the operand back, for every in-range
    operand: the minimum is its own negation. *)
Theorem negation_involutive (T : int_type) (s : stack) (this : addr)
    (a : Z) :
  s !! this = Some a -> representable T a = true ->
  exists r,
    elf_integer.op_neg T this s = Some (r, s)
    /\ representable T r = true
    /\ elf_integer.op_neg T this (<[this := r]> s)
       = Some (a, <[this := r]> s).
Proof.
  intros Hthis Ha.
  pose proof (limits_min_max T) as HT.
  set (r := if a =? numeric_limits_min T then numeric_limits_min T else - a).
  assert (representable T r = true) as Hr.
  { apply representable_spec. apply representable_spec in Ha. subst r.
    destruct (Z.eqb_spec a (numeric_limits_min T)); lia. }
  exists r. split; [apply op_neg_run; assumption|]. split; [exact Hr|].
  assert (<[this := r]> s !! this = Some r) as Hthis'.
  { apply list_lookup_insert_eq. eapply lookup_lt_Some; eauto. }
  rewrite (op_neg_run T _ this r Hthis' Hr). f_equal. f_equal.
  subst r. destruct (Z.eqb_spec a (numeric_limits_min T)) as [->|Hn].
  - rewrite Z.eqb_refl. reflexivity.
  - destruct (Z.eqb_spec (- a) (numeric_limits_min T));
      apply representable_spec in Ha; lia.
Qed.

Lemma negation_involutive_witness :
  [-128] !! 0%nat = Some (-128)
  /\ representable Int8 (-128) = true
  /\ exists r,
       elf_integer.op_neg Int8 0%nat [-128] = Some (r, [-128])
       /\ representable Int8 r = true
       /\ elf_integer.op_neg Int8 0%nat (<[0%nat := r]> [-128])
          = Some (-128, <[0%nat := r]> [-128]).
Proof.
  exact (conj eq_refl (conj eq_refl
          (negation_involutive Int8 [-128] 0%nat (-128) eq_refl eq_refl))).
Defined.

(** X16.  Unary minus and subtraction from 0 agree except at the minimum:
    [-a] and [0 - a] are both the exact negation for every other operand,
    whereas at the minimum [-a] is the minimum and [0 - a] the maximum. *)
Theorem negation_against_zero_minus (T : int_type) (s : stack)
    (zero this : addr) (a : Z) :
  s !! zero = Some 0 -> s !! this = Some a -> representable T a = true ->
  elf_integer.op_neg T this s
  = Some (if a =? numeric_limits_min T then numeric_limits_min T else - a, s)
  /\ elf_integer.op_sub T zero this s
     = Some (if a =? numeric_limits_min T then numeric_limits_max T
             else - a, s).
Proof.
  intros Hzero Hthis Ha.
  pose proof (limits_min_max T) as HT.
  assert (representable T 0 = true) as H0
    by (apply representable_spec; lia).
  split; [apply op_neg_run; assumption|].
  replace (if a =? numeric_limits_min T then numeric_limits_max T else - a)
    with (clamp T (0 - a)).
  - apply binary_run with (a := 0); [exact Hzero|].
    apply op_sub_assign_run;
      eauto using lookup_local, lookup_below_local.
  - apply representable_spec in Ha. unfold clamp.
    destruct (Z.eqb_spec a (numeric_limits_min T)),
      (Z.ltb_spec (0 - a) (numeric_limits_min T)),
      (Z.ltb_spec (numeric_limits_max T) (0 - a)); lia.
Qed.

Lemma negation_against_zero_minus_witness :
  [0; -128] !! 0%nat = Some 0
  /\ [0; -128] !! 1%nat = Some (-128)
  /\ representable Int8 (-128) = true
  /\ elf_integer.op_neg Int8 1%nat [0; -128] = Some (-128, [0; -128])
  /\ elf_integer.op_sub Int8 0%nat 1%nat [0; -128] = Some (127, [0; -128]).
Proof.
  exact (conj eq_refl (conj eq_refl (conj eq_refl
          (negation_against_zero_minus Int8 [0; -128] 0%nat 1%nat (-128)
             eq_refl eq_refl eq_refl)))).
Defined.

(** X17.  The prefix increment is [+= 1] and the prefix decrement is
    [-= 1], for any object holding 1 as right operand. *)
Theorem increment_is_add_one (T : int_type) (s : stack)
    (this one : addr) (a : Z) :
  s !! this = Some a -> s !! one = Some 1 -> representable T a = true ->
  elf_integer.op_pre_incr T this s = elf_integer.op_add_assign T this one s
  /\ elf_integer.op_pre_decr T this s
     = elf_integer.op_sub_assign T this one s.
Proof.
  intros Hthis Hone Ha.
  pose proof (limits_min_max T) as HT.
  assert (representable T 1 = true) as H1
    by (apply representable_spec; lia).
  rewrite (op_pre_incr_run T s this a Hthis Ha).
  rewrite (op_pre_decr_run T s this a Hthis Ha).
  rewrite (op_add_assign_run T s this one a 1 Hthis Hone Ha H1).
  rewrite (op_sub_assign_run T s this one a 1 Hthis Hone Ha H1).
  apply representable_spec in Ha. unfold clamp.
  split; do 3 f_equal.
  - destruct (Z.ltb_spec a (numeric_limits_max T)),
      (Z.ltb_spec (a + 1) (numeric_limits_min T)),
      (Z.ltb_spec (numeric_limits_max T) (a + 1)); lia.
  - destruct (Z.ltb_spec (numeric_limits_min T) a),
      (Z.ltb_spec (a - 1) (numeric_limits_min T)),
      (Z.ltb_spec (numeric_limits_max T) (a - 1)); lia.
Qed.

Lemma increment_is_add_one_witness :
  [127; 1] !! 0%nat = Some 127
  /\ [127; 1] !! 1%nat = Some 1
  /\ representable Int8 127 = true
  /\ elf_integer.op_pre_incr Int8 0%nat [127; 1]
     = elf_integer.op_add_assign Int8 0%nat 1%nat [127; 1]
  /\ elf_integer.op_pre_decr Int8 0%nat [127; 1]
     = elf_integer.op_sub_assign Int8 0%nat 1%nat [127; 1].
Proof.
  exact (conj eq_refl (conj eq_refl (conj eq_refl
          (increment_is_add_one Int8 [127; 1] 0%nat 1%nat 127
             eq_refl eq_refl eq_refl)))).
Defined.

(** X18.  A decrement undoes an increment unless the increment was
    stopped by the maximum, and an increment undoes a decrement unless the
    decrement was stopped by the minimum; at the limits the pair moves the
    value one step inside. *)
Theorem increment_then_decrement (T : int_type) (s : stack) (this : addr)
    (a : Z) :
  s !! this = Some a -> representable T a = true ->
  (elf_integer.op_pre_incr T this ;; elf_integer.op_pre_decr T this) s
  = Some (this, <[this := if a <? numeric_limits_max T then a
                          else a - 1]> s)
  /\ (elf_integer.op_pre_decr T this ;; elf_integer.op_pre_incr T this) s
     = Some (this, <[this := if numeric_limits_min T <? a then a
                             else a + 1]> s).
Proof.
  intros Hthis Ha.
  pose proof (limits_min_max T) as HT.
  assert (forall v, <[this := v]> s !! this = Some v) as Hnew.
  { intros v. apply list_lookup_insert_eq. eapply lookup_lt_Some; eauto. }
  assert (Ha' := Ha). apply representable_spec in Ha'.
  unfold bind.
  rewrite (op_pre_incr_run T s this a Hthis Ha).
  rewrite (op_pre_decr_run T s this a Hthis Ha).
  split.
  - rewrite (op_pre_decr_run T _ this _ (Hnew _))
      by (apply representable_spec;
          destruct (Z.ltb_spec a (numeric_limits_max T)); lia).
    rewrite list_insert_insert_eq. do 3 f_equal.
    destruct (Z.ltb_spec a (numeric_limits_max T)).
    + rewrite (proj2 (Z.ltb_lt (numeric_limits_min T) (a + 1))) by lia. lia.
    + rewrite (proj2 (Z.ltb_lt (numeric_limits_min T) a)) by lia.
      reflexivity.
  - rewrite (op_pre_incr_run T _ this _ (Hnew _))
      by (apply representable_spec;
          destruct (Z.ltb_spec (numeric_limits_min T) a); lia).
    rewrite list_insert_insert_eq. do 3 f_equal.
    destruct (Z.ltb_spec (numeric_limits_min T) a).
    + rewrite (proj2 (Z.ltb_lt (a - 1) (numeric_limits_max T))) by lia. lia.
    + rewrite (proj2 (Z.ltb_lt a (numeric_limits_max T))) by lia.
      reflexivity.
Qed.

Lemma increment_then_decrement_witness :
  [127] !! 0%nat = Some 127
  /\ representable Int8 127 = true
  /\ (elf_integer.op_pre_incr Int8 0%nat ;; elf_integer.op_pre_decr Int8 0%nat)
       [127] = Some (0%nat, [126])
  /\ (elf_integer.op_pre_decr Int8 0%nat ;; elf_integer.op_pre_incr Int8 0%nat)
       [127] = Some (0%nat, [127]).
Proof.
  exact (conj eq_refl (conj eq_refl
          (increment_then_decrement Int8 [127] 0%nat 127 eq_refl eq_refl))).
Defined.

(** ** Division and remainder together *)

(** X19.  Where the division is not saturated, quotient and remainder
    recompose the dividend: [a = (a / b) * b + a % b], the remainder is
    smaller in magnitude than the divisor and takes the sign of the
    dividend. *)
Theorem quotient_remainder_recompose (T : int_type) (s : stack)
    (this other : addr) (a b : Z) :
  s !! this = Some a -> s !! other = Some b ->
  representable T a = true -> representable T b = true ->
  b <> 0 -> ~ (a = numeric_limits_min T /\ b = -1) ->
  exists q r,
    elf_integer.op_div T this other s = Some (q, s)
    /\ elf_integer.op_rem T this other s = Some (r, s)
    /\ a = q * b + r
    /\ Z.abs r < Z.abs b
    /\ 0 <= r * a.
Proof.
  intros Hthis Hother Ha Hb Hb0 Hex.
  exists (a ÷ b), (Z.rem a b).
  assert ((if b =? 0 then numeric_limits_max T
           else if (a =? numeric_limits_min T) && (b =? -1)
                then numeric_limits_max T else a ÷ b) = a ÷ b) as Hq.
  { destruct (Z.eqb_spec b 0); [contradiction|].
    destruct (Z.eqb_spec a (numeric_limits_min T)), (Z.eqb_spec b (-1));
      cbn [andb]; tauto. }
  assert ((if b =? 0 then numeric_limits_max T
           else if (a =? numeric_limits_min T) && (b =? -1)
                then 0 else Z.rem a b) = Z.rem a b) as Hr.
  { destruct (Z.eqb_spec b 0); [contradiction|].
    destruct (Z.eqb_spec a (numeric_limits_min T)), (Z.eqb_spec b (-1));
      cbn [andb]; tauto. }
  split; [|split; [|split; [|split]]].
  - rewrite <- Hq. apply binary_run with (a := a); [exact Hthis|].
    apply op_div_assign_run;
      eauto using lookup_local, lookup_below_local.
  - rewrite <- Hr. apply binary_run with (a := a); [exact Hthis|].
    apply op_rem_assign_run;
      eauto using lookup_local, lookup_below_local.
  - pose proof (Z.quot_rem' a b). lia.
  - apply Z.rem_bound_abs. exact Hb0.
  - apply Z.rem_sign_mul. exact Hb0.
Qed.

Lemma quotient_remainder_recompose_witness :
  [-7; 2] !! 0%nat = Some (-7)
  /\ [-7; 2] !! 1%nat = Some 2
  /\ representable Int8 (-7) = true
  /\ representable Int8 2 = true
  /\ 2 <> 0
  /\ ~ (-7 = numeric_limits_min Int8 /\ 2 = -1)
  /\ exists q r,
       elf_integer.op_div Int8 0%nat 1%nat [-7; 2] = Some (q, [-7; 2])
       /\ elf_integer.op_rem Int8 0%nat 1%nat [-7; 2] = Some (r, [-7; 2])
       /\ -7 = q * 2 + r
       /\ Z.abs r < Z.abs 2
       /\ 0 <= r * -7.
Proof.
  assert (2 <> 0) as H0 by lia.
  assert (~ (-7 = numeric_limits_min Int8 /\ 2 = -1)) as Hex by lia.
  exact (conj eq_refl (conj eq_refl (conj eq_refl (conj eq_refl
          (conj H0 (conj Hex
          (quotient_remainder_recompose Int8 [-7; 2] 0%nat 1%nat (-7) 2
             eq_refl eq_refl eq_refl eq_refl H0 Hex))))))).
Defined.

(** ** Comparisons *)

(** X20.  The six comparisons read both operands and change nothing; they
    agree with one another as those of a total order: exactly one of
    [==], [<] and [>] holds, [!=] is the negation of [==], [<=] and [>=]
    are [<] and [>] joined with [==], and swapping the operands turns [<]
    into [>]. *)
Theorem comparisons_total_order (s : stack) (this other : addr) (a b : Z) :
  s !! this = Some a -> s !! other = Some b ->
  exists e l g : bool,
    elf_integer.op_eq this other s = Some (e, s)
    /\ elf_integer.op_lt this other s = Some (l, s)
    /\ elf_integer.op_gt this other s = Some (g, s)
    /\ elf_integer.op_ne this other s = Some (negb e, s)
    /\ elf_integer.op_le this other s = Some (l || e, s)
    /\ elf_integer.op_ge this other s = Some (g || e, s)
    /\ elf_integer.op_gt other this s = Some (l, s)
    /\ elf_integer.op_lt other this s = Some (g, s)
    /\ elf_integer.op_eq other this s = Some (e, s)
    /\ (e = true <-> a = b)
    /\ (l = true <-> a < b)
    /\ (g = true <-> b < a)
    /\ ((e = true /\ l = false /\ g = false)
        \/ (e = false /\ l = true /\ g = false)
        \/ (e = false /\ l = false /\ g = true)).
Proof.
  intros Hthis Hother.
  exists (a =? b), (a <? b), (a >? b).
  unfold elf_integer.op_eq, elf_integer.op_lt, elf_integer.op_gt,
    elf_integer.op_ne, elf_integer.op_le, elf_integer.op_ge, bind, ret.
  rewrite !(value_run _ _ _ Hthis), !(value_run _ _ _ Hother).
  rewrite !(value_run _ _ _ Hthis).
  rewrite !Z.gtb_ltb.
  repeat split; try lia.
  - do 2 f_equal. lia.
  - do 2 f_equal. rewrite Z.geb_leb. lia.
  - do 2 f_equal. lia.
Qed.

Lemma comparisons_total_order_witness :
  [-128; 127] !! 0%nat = Some (-128)
  /\ [-128; 127] !! 1%nat = Some 127
  /\ exists e l g : bool,
       elf_integer.op_eq 0%nat 1%nat [-128; 127] = Some (e, [-128; 127])
       /\ elf_integer.op_lt 0%nat 1%nat [-128; 127] = Some (l, [-128; 127])
       /\ elf_integer.op_gt 0%nat 1%nat [-128; 127] = Some (g, [-128; 127])
       /\ elf_integer.op_ne 0%nat 1%nat [-128; 127]
          = Some (negb e, [-128; 127])
       /\ elf_integer.op_le 0%nat 1%nat [-128; 127]
          = Some (l || e, [-128; 127])
       /\ elf_integer.op_ge 0%nat 1%nat [-128; 127]
          = Some (g || e, [-128; 127])
       /\ elf_integer.op_gt 1%nat 0%nat [-128; 127] = Some (l, [-128; 127])
       /\ elf_integer.op_lt 1%nat 0%nat [-128; 127] = Some (g, [-128; 127])
       /\ elf_integer.op_eq 1%nat 0%nat [-128; 127] = Some (e, [-128; 127])
       /\ (e = true <-> -128 = 127)
       /\ (l = true <-> -128 < 127)
       /\ (g = true <-> 127 < -128)
       /\ ((e = true /\ l = false /\ g = false)
           \/ (e = false /\ l = true /\ g = false)
           \/ (e = false /\ l = false /\ g = true)).
Proof.
  exact (conj eq_refl (conj eq_refl
          (comparisons_total_order [-128; 127] 0%nat 1%nat (-128) 127
             eq_refl eq_refl))).
Defined.

(** ** Detecting saturation, and copies *)

(** X21.  Comparing a sum with [max()] and [min()] detects saturation up
    to the limit itself: after [a += b] the object equals [max()] exactly
    when the exact sum is at least the maximum, and equals [min()] exactly
    when the exact sum is at most the minimum. *)
Theorem saturation_detected_by_comparison (T : int_type) (s : stack)
    (this other lo hi : addr) (a b : Z) :
  s !! this = Some a -> s !! other = Some b ->
  s !! lo = Some (elf_integer.min T) -> s !! hi = Some (elf_integer.max T) ->
  lo <> this -> hi <> this ->
  representable T a = true -> representable T b = true ->
  (elf_integer.op_add_assign T this other ;; elf_integer.op_eq this hi) s
  = Some (numeric_limits_max T <=? a + b, <[this := clamp T (a + b)]> s)
  /\ (elf_integer.op_add_assign T this other ;; elf_integer.op_eq this lo) s
     = Some (a + b <=? numeric_limits_min T, <[this := clamp T (a + b)]> s).
Proof.
  intros Hthis Hother Hlo Hhi Hnlo Hnhi Ha Hb.
  pose proof (limits_min_max T) as HT.
  unfold bind.
  rewrite (op_add_assign_run T s this other a b Hthis Hother Ha Hb).
  unfold elf_integer.op_eq, bind, ret, value.
  rewrite list_lookup_insert_eq by (eapply lookup_lt_Some; eauto).
  rewrite !list_lookup_insert_ne by congruence.
  rewrite Hlo, Hhi. unfold elf_integer.min, elf_integer.max, clamp.
  split; do 2 f_equal;
    destruct (Z.ltb_spec (a + b) (numeric_limits_min T)),
      (Z.ltb_spec (numeric_limits_max T) (a + b)); lia.
Qed.

Lemma saturation_detected_by_comparison_witness :
  [100; 27; -128; 127] !! 0%nat = Some 100
  /\ [100; 27; -128; 127] !! 1%nat = Some 27
  /\ [100; 27; -128; 127] !! 2%nat = Some (elf_integer.min Int8)
  /\ [100; 27; -128; 127] !! 3%nat = Some (elf_integer.max Int8)
  /\ 2%nat <> 0%nat
  /\ 3%nat <> 0%nat
  /\ representable Int8 100 = true
  /\ representable Int8 27 = true
  /\ (elf_integer.op_add_assign Int8 0%nat 1%nat ;;
      elf_integer.op_eq 0%nat 3%nat) [100; 27; -128; 127]
     = Some (true, [127; 27; -128; 127])
  /\ (elf_integer.op_add_assign Int8 0%nat 1%nat ;;
      elf_integer.op_eq 0%nat 2%nat) [100; 27; -128; 127]
     = Some (false, [127; 27; -128; 127]).
Proof.
  assert (2%nat <> 0%nat) as H2 by discriminate.
  assert (3%nat <> 0%nat) as H3 by discriminate.
  exact (conj eq_refl (conj eq_refl (conj eq_refl (conj eq_refl
          (conj H2 (conj H3 (conj eq_refl (conj eq_refl
          (saturation_detected_by_comparison Int8 [100; 27; -128; 127]
             0%nat 1%nat 2%nat 3%nat 100 27
             eq_refl eq_refl eq_refl eq_refl H2 H3 eq_refl eq_refl))))))))).
Defined.

(** X22.  A copy is equal to its source and independent of it: after
    [c = a] the two compare equal, and incrementing the copy afterwards
    changes the copy only. *)
Theorem copy_is_independent (T : int_type) (s : stack) (this other : addr)
    (a w : Z) :
  s !! this = Some w -> s !! other = Some a -> this <> other ->
  representable T a = true ->
  (elf_integer.op_assign this other ;; elf_integer.op_eq this other) s
  = Some (true, <[this := a]> s)
  /\ exists s',
       (elf_integer.op_assign this other ;; elf_integer.op_pre_incr T this) s
       = Some (this, s')
       /\ s' !! other = Some a
       /\ s' !! this = Some (if a <? numeric_limits_max T then a + 1 else a).
Proof.
  intros Hthis Hother Hne Ha.
  assert (forall v, <[this := v]> s !! this = Some v) as Hnew.
  { intros v. apply list_lookup_insert_eq. eapply lookup_lt_Some; eauto. }
  assert (forall v, <[this := v]> s !! other = Some a) as Hold.
  { intros v. rewrite list_lookup_insert_ne by exact Hne. exact Hother. }
  assert (elf_integer.op_assign this other s = Some (this, <[this := a]> s))
    as Hcopy.
  { unfold elf_integer.op_assign, bind, ret, value, set_value.
    rewrite Hother, Hthis. reflexivity. }
  unfold bind. rewrite Hcopy. split.
  - unfold elf_integer.op_eq, bind, ret, value.
    rewrite Hnew, Hold, Z.eqb_refl. reflexivity.
  - rewrite (op_pre_incr_run T _ this a (Hnew a) Ha).
    rewrite list_insert_insert_eq. eauto.
Qed.

Lemma copy_is_independent_witness :
  [0; 41] !! 0%nat = Some 0
  /\ [0; 41] !! 1%nat = Some 41
  /\ 0%nat <> 1%nat
  /\ representable Int8 41 = true
  /\ (elf_integer.op_assign 0%nat 1%nat ;; elf_integer.op_eq 0%nat 1%nat)
       [0; 41] = Some (true, [41; 41])
  /\ exists s',
       (elf_integer.op_assign 0%nat 1%nat ;;
        elf_integer.op_pre_incr Int8 0%nat) [0; 41] = Some (0%nat, s')
       /\ s' !! 1%nat = Some 41
       /\ s' !! 0%nat
          = Some (if 41 <? numeric_limits_max Int8 then 41 + 1 else 41).
Proof.
  assert (0%nat <> 1%nat) as Hne by discriminate.
  exact (conj eq_refl (conj eq_refl (conj Hne (conj eq_refl
          (copy_is_independent Int8 [0; 41] 0%nat 1%nat 41 0
             eq_refl eq_refl Hne eq_refl))))).
Defined.
